(** * Open Image Denoise: device layer, kernel dispatch and API handles

    A shallow embedding of

    - [core/cuda/cuda_device.h]: the CUDA kernel wrappers
      ([basicCUDAKernel], [groupCUDAKernel]), the two [runKernelAsync]
      overloads, [suggestWorkGroupSize] and the Op factory methods;
    - [include/OpenImageDenoise/oidn.hpp]: the [Error] enumeration, the
      reference-counted wrappers [BufferRef], [FilterRef], [DeviceRef] and
      [DeviceRef::getError];
    - [devices/cpu/cpu_input_process.h], [devices/cpu/bnns/bnns_pool.h]: the
      class declarations of two concrete Ops.

    Integers of the source ([int] components of [WorkDim<N>], pointers used as
    handles) are [Z] and [N]; associative state (objects in memory,
    reference counts, error slots) is kept in [gmap]s. *)

From stdpp Require Import gmap list strings.

Open Scope Z_scope.

(* ===================================================================== *)
(** * Part I: definitions                                                 *)
(* ===================================================================== *)

(** ** Work dimensions and work items *)

(** [WorkDim<1>], [WorkDim<2>], [WorkDim<3>] hold one, two and three [int]s.
    The class is declared in a header that is not among the files embedded
    here; only its component-wise reading is used below.  The [int]s are
    taken as mathematical integers: no sum or product below is meant to leave
    the range of [int]. *)
Abbreviation WorkDim1 := Z (only parsing).
Abbreviation WorkDim2 := (Z * Z)%type (only parsing).
Abbreviation WorkDim3 := (Z * Z * Z)%type (only parsing).

(** Modelled from the spec: the helper [ceil_div] called by [runKernelAsync]
    is defined in a header that is not among the files embedded here; the
    spec calls it "ceiling-division".  On [int]s that is [(a + b - 1) / b]
    with C++'s truncating division. *)
Definition ceil_div (a b : Z) : Z := (a + b - 1) `quot` b.

(** Modelled from the spec: [ceil_div] on [WorkDim<2>] and [WorkDim<3>],
    missing like the scalar one, "per dimension". *)
Definition ceil_div2 (a b : WorkDim2) : WorkDim2 :=
  (ceil_div a.1 b.1, ceil_div a.2 b.2).

Definition ceil_div3 (a b : WorkDim3) : WorkDim3 :=
  (ceil_div a.1.1 b.1.1, ceil_div a.1.2 b.1.2, ceil_div a.2 b.2).

(** All coordinates of an iteration space of dimension 1, 2 or 3. *)
Class Coords (D : Type) := coords : D → list D.

Global Instance coords1 : Coords Z := λ n, seqZ 0 n.
Global Instance coords2 : Coords (Z * Z) :=
  λ n, cprod (seqZ 0 n.1) (seqZ 0 n.2).
Global Instance coords3 : Coords (Z * Z * Z) :=
  λ n, cprod (cprod (seqZ 0 n.1.1) (seqZ 0 n.1.2)) (seqZ 0 n.2).

(** What the hardware tells one thread of a launch [<<<numGroups, groupSize>>>]:
    its block, its index inside the block, and the launch configuration. *)
Record Thread (D : Type) := mkThread {
  blockIdx : D;
  threadIdx : D;
  blockDim : D;
  gridDim : D
}.
Arguments mkThread {D}.
Arguments blockIdx {D}.
Arguments threadIdx {D}.
Arguments blockDim {D}.
Arguments gridDim {D}.

(** The threads of a launch: every block of the grid, every thread of the
    block. *)
Definition grid {D} `{Coords D} (numGroups groupSize : D) : list (Thread D) :=
  (λ bt, mkThread bt.1 bt.2 groupSize numGroups)
    <$> cprod (coords numGroups) (coords groupSize).

(** A kernel is run by every thread of the grid.  Kernel bodies are state
    transformers on the device state [S]; the threads are folded in grid
    order, one of the schedules the hardware may pick. *)
Definition launch {D S} `{Coords D} (numGroups groupSize : D)
    (kernel : Thread D → S → S) (st : S) : S :=
  foldl (λ s th, kernel th s) st (grid numGroups groupSize).

(** Modelled from the spec: [WorkItem<N>] is declared in a header that is
    not among the files embedded here.  It is "a single coordinate within"
    the iteration domain: the global index of the thread that constructs it,
    block index times block size plus index in the block, next to the global
    range it is constructed with. *)
Record WorkItem (D : Type) := mkWorkItem {
  getId : D;
  getRange : D
}.
Arguments mkWorkItem {D}.
Arguments getId {D}.
Arguments getRange {D}.

Definition newWorkItem1 (globalSize : WorkDim1) (th : Thread Z) : WorkItem Z :=
  mkWorkItem
    (blockIdx th * blockDim th + threadIdx th)
    globalSize.

Definition newWorkItem2 (globalSize : WorkDim2) (th : Thread (Z * Z))
    : WorkItem (Z * Z) :=
  mkWorkItem
    ((blockIdx th).1 * (blockDim th).1 + (threadIdx th).1,
     (blockIdx th).2 * (blockDim th).2 + (threadIdx th).2)
    globalSize.

Definition newWorkItem3 (globalSize : WorkDim3) (th : Thread (Z * Z * Z))
    : WorkItem (Z * Z * Z) :=
  mkWorkItem
    ((blockIdx th).1.1 * (blockDim th).1.1 + (threadIdx th).1.1,
     (blockIdx th).1.2 * (blockDim th).1.2 + (threadIdx th).1.2,
     (blockIdx th).2 * (blockDim th).2 + (threadIdx th).2)
    globalSize.

(** Modelled from the spec: [WorkGroupItem<N>], declared next to
    [WorkItem<N>], is what a work-group kernel body sees of its thread: group
    and local index, group size and number of groups. *)
Record WorkGroupItem (D : Type) := mkWorkGroupItem {
  getGroupId : D;
  getLocalId : D;
  getGroupSize : D;
  getNumGroups : D
}.
Arguments mkWorkGroupItem {D}.
Arguments getGroupId {D}.
Arguments getLocalId {D}.
Arguments getGroupSize {D}.
Arguments getNumGroups {D}.

Definition newWorkGroupItem {D} (th : Thread D) : WorkGroupItem D :=
  mkWorkGroupItem (blockIdx th) (threadIdx th) (blockDim th) (gridDim th).

(** ** Main kernel functions ([cuda_device.h], lines 14-45) *)

Definition basicCUDAKernel1 {S} (globalSize : WorkDim1)
    (f : WorkItem Z → S → S) (th : Thread Z) (st : S) : S :=
  let it := newWorkItem1 globalSize th in
  if bool_decide (getId it < getRange it) then f it st else st.

Definition basicCUDAKernel2 {S} (globalSize : WorkDim2)
    (f : WorkItem (Z * Z) → S → S) (th : Thread (Z * Z)) (st : S) : S :=
  let it := newWorkItem2 globalSize th in
  if bool_decide ((getId it).1 < (getRange it).1) &&
     bool_decide ((getId it).2 < (getRange it).2)
  then f it st else st.

Definition basicCUDAKernel3 {S} (globalSize : WorkDim3)
    (f : WorkItem (Z * Z * Z) → S → S) (th : Thread (Z * Z * Z)) (st : S) : S :=
  let it := newWorkItem3 globalSize th in
  if bool_decide ((getId it).1.1 < (getRange it).1.1) &&
     bool_decide ((getId it).1.2 < (getRange it).1.2) &&
     bool_decide ((getId it).2 < (getRange it).2)
  then f it st else st.

Definition groupCUDAKernel {D S} (f : WorkGroupItem D → S → S)
    (th : Thread D) (st : S) : S :=
  f (newWorkGroupItem th) st.

(** ** Group size heuristic ([cuda_device.h], lines 106-109) *)

Definition suggestWorkGroupSize1 (globalSize : WorkDim1) : WorkDim1 := 256.
Definition suggestWorkGroupSize2 (globalSize : WorkDim2) : WorkDim2 := (16, 16).
Definition suggestWorkGroupSize3 (globalSize : WorkDim3) : WorkDim3 :=
  (1, 16, 16).

(** The body that records the item it is invoked on: running a kernel with
    it from the empty list yields the list of body invocations of a launch. *)
Definition record {A} (it : A) (tr : list A) : list A := tr ++ [it].

(** Coordinate-wise order on extents, and membership in [[0, extent)]. *)
Definition in_range1 (c e : Z) : Prop := 0 ≤ c < e.
Definition in_range2 (c e : Z * Z) : Prop :=
  0 ≤ c.1 < e.1 ∧ 0 ≤ c.2 < e.2.
Definition in_range3 (c e : Z * Z * Z) : Prop :=
  0 ≤ c.1.1 < e.1.1 ∧ 0 ≤ c.1.2 < e.1.2 ∧ 0 ≤ c.2 < e.2.

(** ** Error codes ([oidn.hpp], lines 347-357) *)

(** The C enumeration [OIDNError] of [oidn.h]: the constants that the
    enumerators of [Error] are defined from. *)
Inductive OIDNError :=
  | OIDN_ERROR_NONE
  | OIDN_ERROR_UNKNOWN
  | OIDN_ERROR_INVALID_ARGUMENT
  | OIDN_ERROR_INVALID_OPERATION
  | OIDN_ERROR_OUT_OF_MEMORY
  | OIDN_ERROR_UNSUPPORTED_HARDWARE
  | OIDN_ERROR_CANCELLED.

Global Instance OIDNError_eq_dec : EqDecision OIDNError.
Proof. solve_decision. Defined.

Module Error.
Inductive t :=
  | None                (* no error occurred *)
  | Unknown             (* an unknown error occurred *)
  | InvalidArgument     (* an invalid argument was specified *)
  | InvalidOperation    (* the operation is not allowed *)
  | OutOfMemory         (* not enough memory to execute the operation *)
  | UnsupportedHardware (* the hardware (e.g. CPU) is not supported *)
  | Cancelled.          (* the operation was cancelled by the user *)

Global Instance eq_dec : EqDecision t.
Proof. solve_decision. Defined.

(** The value each enumerator is declared with. *)
Definition to_c (e : t) : OIDNError :=
  match e with
  | None => OIDN_ERROR_NONE
  | Unknown => OIDN_ERROR_UNKNOWN
  | InvalidArgument => OIDN_ERROR_INVALID_ARGUMENT
  | InvalidOperation => OIDN_ERROR_INVALID_OPERATION
  | OutOfMemory => OIDN_ERROR_OUT_OF_MEMORY
  | UnsupportedHardware => OIDN_ERROR_UNSUPPORTED_HARDWARE
  | Cancelled => OIDN_ERROR_CANCELLED
  end.

(** The cast [(Error)code]. *)
Definition of_c (c : OIDNError) : t :=
  match c with
  | OIDN_ERROR_NONE => None
  | OIDN_ERROR_UNKNOWN => Unknown
  | OIDN_ERROR_INVALID_ARGUMENT => InvalidArgument
  | OIDN_ERROR_INVALID_OPERATION => InvalidOperation
  | OIDN_ERROR_OUT_OF_MEMORY => OutOfMemory
  | OIDN_ERROR_UNSUPPORTED_HARDWARE => UnsupportedHardware
  | OIDN_ERROR_CANCELLED => Cancelled
  end.

Definition all : list t :=
  [None; Unknown; InvalidArgument; InvalidOperation; OutOfMemory;
   UnsupportedHardware; Cancelled].
End Error.

(** ** The error slot of a device *)

Record ErrorState := mkErrorState {
  code : OIDNError;
  message : string
}.

Definition noError : ErrorState := mkErrorState OIDN_ERROR_NONE EmptyString.

(** Modelled from the spec: recording an error is done by the device
    implementation, which is not among the files embedded here.  "A new error
    overwrites the slot only if the previous one was already retrieved or
    none was pending." *)
Definition recordError (c : OIDNError) (msg : string) (s : ErrorState)
    : ErrorState :=
  if decide (code s = OIDN_ERROR_NONE) then mkErrorState c msg else s.

(** Modelled from the spec: reading the slot, also done by the missing
    device implementation.  "Retrieval returns and clears it." *)
Definition takeError (s : ErrorState) : OIDNError * string * ErrorState :=
  (code s, message s, noError).

(** Error slots by device handle.  Handles are pointers: [0] is [nullptr],
    whose slot holds the error of a failed device creation.  A handle
    without an entry has an empty slot. *)
Definition errorSlot (handle : N) (slots : gmap N ErrorState) : ErrorState :=
  default noError (slots !! handle).

(** Modelled from the spec: [Device::setError] of the device implementation,
    on the slot of the device [handle]. *)
Definition setError (handle : N) (c : OIDNError) (msg : string)
    (slots : gmap N ErrorState) : gmap N ErrorState :=
  <[handle := recordError c msg (errorSlot handle slots)]> slots.

(** Modelled from the spec: the C entry point [oidnGetDeviceError], which
    [DeviceRef::getError] calls and which is only declared in [oidn.h].  "A
    null/failed-construction Device must still answer error queries"; the
    error kind comes with "an optional human-readable message string".
    [outMessage] tells whether a message pointer was passed. *)
Definition oidnGetDeviceError (handle : N) (outMessage : bool)
    (slots : gmap N ErrorState)
    : OIDNError * option string * gmap N ErrorState :=
  let '(c, msg, s) := takeError (errorSlot handle slots) in
  (c, if outMessage then Some msg else None, <[handle := s]> slots).

(** [DeviceRef::getError()] and [DeviceRef::getError(const char*&)]
    ([oidn.hpp], lines 450-462), for a wrapper whose field is [handle]. *)
Definition getError (handle : N) (slots : gmap N ErrorState)
    : Error.t * gmap N ErrorState :=
  let '(c, _, slots') := oidnGetDeviceError handle false slots in
  (Error.of_c c, slots').

Definition getErrorMessage (handle : N) (slots : gmap N ErrorState)
    : Error.t * option string * gmap N ErrorState :=
  let '(c, outMessage, slots') := oidnGetDeviceError handle true slots in
  (Error.of_c c, outMessage, slots').

(** ** Enqueueing kernels ([cuda_device.h], lines 71-96) *)

(** Status codes of the CUDA runtime that a launch can report. *)
Inductive cudaError_t :=
  | cudaSuccess
  | cudaErrorMemoryAllocation
  | cudaErrorInvalidConfiguration
  | cudaErrorLaunchOutOfResources
  | cudaErrorUnknown.

Global Instance cudaError_eq_dec : EqDecision cudaError_t.
Proof. solve_decision. Defined.

(** The state of a CUDA device as far as kernel dispatch touches it: the
    memory the kernels work on, the runtime's last error, and the device's
    error slot. *)
Record CUDADevice (S : Type) := mkCUDADevice {
  memory : S;
  lastError : cudaError_t;
  errorState : ErrorState
}.
Arguments mkCUDADevice {S}.
Arguments memory {S}.
Arguments lastError {S}.
Arguments errorState {S}.

(** [kernel<<<numGroups, groupSize>>>(...)].  [status] is what the runtime
    makes of the launch: on [cudaSuccess] the grid runs, otherwise no thread
    runs and the status becomes the last error. *)
Definition cudaLaunchKernel {D S} `{Coords D} (status : cudaError_t)
    (numGroups groupSize : D) (kernel : Thread D → S → S)
    (dev : CUDADevice S) : CUDADevice S :=
  match status with
  | cudaSuccess =>
      mkCUDADevice (launch numGroups groupSize kernel (memory dev))
        (lastError dev) (errorState dev)
  | _ => mkCUDADevice (memory dev) status (errorState dev)
  end.

(** [cudaGetLastError()] returns the last error and resets it. *)
Definition cudaGetLastError {S} (dev : CUDADevice S)
    : cudaError_t * CUDADevice S :=
  (lastError dev, mkCUDADevice (memory dev) cudaSuccess (errorState dev)).

Definition cudaGetErrorString (error : cudaError_t) : string :=
  match error with
  | cudaSuccess => "no error"
  | cudaErrorMemoryAllocation => "out of memory"
  | cudaErrorInvalidConfiguration => "invalid configuration argument"
  | cudaErrorLaunchOutOfResources => "too many resources requested for launch"
  | cudaErrorUnknown => "unknown error"
  end.

(** Modelled from the spec: the error kind [checkError] turns a status
    into.  "A backend dispatch failure (invalid launch configuration,
    out-of-resources) is [...] converted into a Device-level error of kind
    Unknown or OutOfMemory". *)
Definition errorKind (error : cudaError_t) : OIDNError :=
  match error with
  | cudaSuccess => OIDN_ERROR_NONE
  | cudaErrorMemoryAllocation => OIDN_ERROR_OUT_OF_MEMORY
  | cudaErrorLaunchOutOfResources => OIDN_ERROR_OUT_OF_MEMORY
  | cudaErrorInvalidConfiguration => OIDN_ERROR_UNKNOWN
  | cudaErrorUnknown => OIDN_ERROR_UNKNOWN
  end.

(** Modelled from the spec: [checkError] is declared in [cuda_device.h]
    (line 48) and defined elsewhere.  The failure "does not throw past the
    Engine boundary - it is recorded and must be retrieved via the Device's
    error accessor": the effect of the call on the device is an error in its
    slot. *)
Definition checkError {S} (error : cudaError_t) (dev : CUDADevice S)
    : CUDADevice S :=
  match error with
  | cudaSuccess => dev
  | _ =>
      mkCUDADevice (memory dev) (lastError dev)
        (recordError (errorKind error) (cudaGetErrorString error)
           (errorState dev))
  end.

(** Enqueues a basic kernel. *)
Definition runKernelAsync1 {S} (status : cudaError_t) (globalSize : WorkDim1)
    (f : WorkItem Z → S → S) (dev : CUDADevice S) : CUDADevice S :=
  let groupSize := suggestWorkGroupSize1 globalSize in
  let numGroups := ceil_div globalSize groupSize in
  let dev := cudaLaunchKernel status numGroups groupSize
               (basicCUDAKernel1 globalSize f) dev in
  let '(error, dev) := cudaGetLastError dev in
  checkError error dev.

Definition runKernelAsync2 {S} (status : cudaError_t) (globalSize : WorkDim2)
    (f : WorkItem (Z * Z) → S → S) (dev : CUDADevice S) : CUDADevice S :=
  let groupSize := suggestWorkGroupSize2 globalSize in
  let numGroups := ceil_div2 globalSize groupSize in
  let dev := cudaLaunchKernel status numGroups groupSize
               (basicCUDAKernel2 globalSize f) dev in
  let '(error, dev) := cudaGetLastError dev in
  checkError error dev.

Definition runKernelAsync3 {S} (status : cudaError_t) (globalSize : WorkDim3)
    (f : WorkItem (Z * Z * Z) → S → S) (dev : CUDADevice S) : CUDADevice S :=
  let groupSize := suggestWorkGroupSize3 globalSize in
  let numGroups := ceil_div3 globalSize groupSize in
  let dev := cudaLaunchKernel status numGroups groupSize
               (basicCUDAKernel3 globalSize f) dev in
  let '(error, dev) := cudaGetLastError dev in
  checkError error dev.

(** Enqueues a work-group kernel. *)
Definition runKernelAsyncGroup {D S} `{Coords D} (status : cudaError_t)
    (numGroups groupSize : D) (f : WorkGroupItem D → S → S)
    (dev : CUDADevice S) : CUDADevice S :=
  let dev := cudaLaunchKernel status numGroups groupSize
               (groupCUDAKernel f) dev in
  let '(error, dev) := cudaGetLastError dev in
  checkError error dev.

(** A caller enqueueing one basic kernel after the other, as the [submit]
    of an Op does; each launch comes with the status the runtime gives it. *)
Definition enqueueAll {S}
    (launches : list (cudaError_t * Z * (WorkItem Z → S → S)))
    (dev : CUDADevice S) : CUDADevice S :=
  foldl (λ d l, runKernelAsync1 l.1.1 l.1.2 l.2 d) dev launches.

(** The first status of a list that is not [cudaSuccess], if any. *)
Fixpoint firstFailure (statuses : list cudaError_t) : cudaError_t :=
  match statuses with
  | [] => cudaSuccess
  | status :: statuses =>
      if decide (status = cudaSuccess) then firstFailure statuses else status
  end.

(** What a failed launch leaves behind: no kernel ran, the runtime's error
    was consumed, and the device's slot holds an error - the launch's own,
    of kind Unknown or OutOfMemory, when no earlier error was pending. *)
Definition failure_recorded {S} (status : cudaError_t)
    (dev dev' : CUDADevice S) : Prop :=
  memory dev' = memory dev ∧
  lastError dev' = cudaSuccess ∧
  code (errorState dev') ≠ OIDN_ERROR_NONE ∧
  (code (errorState dev) = OIDN_ERROR_NONE →
     (code (errorState dev') = OIDN_ERROR_UNKNOWN ∨
      code (errorState dev') = OIDN_ERROR_OUT_OF_MEMORY) ∧
     (takeError (errorState dev')).1
     = (errorKind status, cudaGetErrorString status)) ∧
  (code (errorState dev) ≠ OIDN_ERROR_NONE →
     errorState dev' = errorState dev).

(** ** Reference-counted wrappers ([oidn.hpp]: [BufferRef], [FilterRef],
    [DeviceRef]) *)

(** The three wrapper classes have the same members up to the handle type
    and the retain/release entry points they call. *)
Inductive RefClass := BufferRef | FilterRef | DeviceRef.

(** Calls into the C API made by the wrappers: [oidnRetainBuffer],
    [oidnReleaseBuffer] and their Filter and Device counterparts. *)
Inductive ApiCall :=
  | Retain (cls : RefClass) (handle : N)
  | Release (cls : RefClass) (handle : N).

(** Memory as the wrappers see it.  [objs] maps the address of each live
    wrapper object to its [handle] field ([0] is [nullptr]); [refs] maps the
    handle of each live API object to its reference count; [calls] logs the
    retain and release calls made so far. *)
Record Heap := mkHeap {
  objs : gmap N N;
  refs : gmap N nat;
  calls : list ApiCall
}.

Definition set_objs (f : gmap N N → gmap N N) (σ : Heap) : Heap :=
  mkHeap (f (objs σ)) (refs σ) (calls σ).

(** Modelled from the spec: the entry points [oidnRetainBuffer],
    [oidnRetainFilter], [oidnRetainDevice] are only declared in [oidn.h].
    "Copy increments a shared lifetime".  Using a handle whose object is gone
    is undefined: [None]. *)
Definition oidnRetain (cls : RefClass) (handle : N) (σ : Heap) : option Heap :=
  n ← refs σ !! handle;
  Some (mkHeap (objs σ) (<[handle := S n]> (refs σ))
          (calls σ ++ [Retain cls handle])).

(** Modelled from the spec: the entry points [oidnReleaseBuffer],
    [oidnReleaseFilter], [oidnReleaseDevice], only declared in [oidn.h].
    "Destruction decrements it, and the underlying resource is released only
    when the last owner is gone." *)
Definition oidnRelease (cls : RefClass) (handle : N) (σ : Heap) : option Heap :=
  n ← refs σ !! handle;
  Some (mkHeap (objs σ)
          (if decide (n ≤ 1)%nat then delete handle (refs σ)
           else <[handle := pred n]> (refs σ))
          (calls σ ++ [Release cls handle])).

(** Modelled from the spec: a successful [oidnNewDevice], [oidnNewBuffer] or
    [oidnNewFilter], only declared in [oidn.h]: a new API object, owned once,
    under a non-null handle that is not in use. *)
Definition oidnNew (handle : N) (σ : Heap) : option Heap :=
  if decide (handle ≠ 0%N ∧ refs σ !! handle = None)
  then Some (mkHeap (objs σ) (<[handle := 1%nat]> (refs σ)) (calls σ))
  else None.

Section Ref.
Variable cls : RefClass.

(** [Ref() : handle(nullptr) {}] and [Ref(OIDNx handle) : handle(handle) {}];
    [this] is storage in which no object lives yet. *)
Definition ctor_handle (this : N) (handle : N) (σ : Heap) : option Heap :=
  if decide (objs σ !! this = None)
  then Some (set_objs <[this := handle]> σ)
  else None.

Definition ctor_default (this : N) (σ : Heap) : option Heap :=
  ctor_handle this 0%N σ.

(** [Ref(const Ref& other)] *)
Definition ctor_copy (this other : N) (σ : Heap) : option Heap :=
  handle ← objs σ !! other;
  σ ← ctor_handle this handle σ;
  if decide (handle ≠ 0%N) then oidnRetain cls handle σ else Some σ.

(** [Ref(Ref&& other)] *)
Definition ctor_move (this other : N) (σ : Heap) : option Heap :=
  handle ← objs σ !! other;
  σ ← ctor_handle this handle σ;
  Some (set_objs <[other := 0%N]> σ).

(** [operator =(const Ref& other)] *)
Definition assign_copy (this other : N) (σ : Heap) : option Heap :=
  handle ← objs σ !! this;
  other_handle ← objs σ !! other;
  if decide (other ≠ this) then
    σ ← (if decide (other_handle ≠ 0%N)
         then oidnRetain cls other_handle σ else Some σ);
    σ ← (if decide (handle ≠ 0%N)
         then oidnRelease cls handle σ else Some σ);
    Some (set_objs <[this := other_handle]> σ)
  else Some σ.

(** [operator =(Ref&& other)]: [std::swap(handle, other.handle)] *)
Definition assign_move (this other : N) (σ : Heap) : option Heap :=
  handle ← objs σ !! this;
  other_handle ← objs σ !! other;
  Some (set_objs (λ m, <[other := handle]> (<[this := other_handle]> m)) σ).

(** [operator =(OIDNx other)] *)
Definition assign_handle (this : N) (other : N) (σ : Heap) : option Heap :=
  handle ← objs σ !! this;
  σ ← (if decide (other ≠ 0%N) then oidnRetain cls other σ else Some σ);
  σ ← (if decide (handle ≠ 0%N) then oidnRelease cls handle σ else Some σ);
  Some (set_objs <[this := other]> σ).

(** [~Ref()]; afterwards no object lives at [this]. *)
Definition dtor (this : N) (σ : Heap) : option Heap :=
  handle ← objs σ !! this;
  σ ← (if decide (handle ≠ 0%N) then oidnRelease cls handle σ else Some σ);
  Some (set_objs (delete this) σ).

(** [getHandle()] and [operator bool()] *)
Definition getHandle (this : N) (σ : Heap) : option N := objs σ !! this.

Definition to_bool (this : N) (σ : Heap) : option bool :=
  handle ← objs σ !! this; Some (bool_decide (handle ≠ 0%N)).

(** [newDevice], [newBuffer], [newFilter]: a wrapper constructed from the
    handle of a freshly created object. *)
Definition new_ref (this : N) (handle : N) (σ : Heap) : option Heap :=
  σ ← oidnNew handle σ; ctor_handle this handle σ.

(** Programs over wrappers. *)
Inductive RefOp :=
  | New (this handle : N)
  | DefaultCtor (this : N)
  | CopyCtor (this other : N)
  | MoveCtor (this other : N)
  | CopyAssign (this other : N)
  | MoveAssign (this other : N)
  | Dtor (this : N).

Definition step (op : RefOp) (σ : Heap) : option Heap :=
  match op with
  | New this handle => new_ref this handle σ
  | DefaultCtor this => ctor_default this σ
  | CopyCtor this other => ctor_copy this other σ
  | MoveCtor this other => ctor_move this other σ
  | CopyAssign this other => assign_copy this other σ
  | MoveAssign this other => assign_move this other σ
  | Dtor this => dtor this σ
  end.

Fixpoint run (ops : list RefOp) (σ : Heap) : option Heap :=
  match ops with
  | [] => Some σ
  | op :: ops => σ ← step op σ; run ops σ
  end.
End Ref.

(** What C++ asks of a program: constructors run on storage without a live
    object, every other member on live objects, and a new API object gets a
    non-null handle not in use. *)
Definition op_ok (op : RefOp) (σ : Heap) : Prop :=
  match op with
  | New this handle =>
      objs σ !! this = None ∧ handle ≠ 0%N ∧ refs σ !! handle = None
  | DefaultCtor this => objs σ !! this = None
  | CopyCtor this other | MoveCtor this other =>
      objs σ !! this = None ∧ is_Some (objs σ !! other)
  | CopyAssign this other | MoveAssign this other =>
      is_Some (objs σ !! this) ∧ is_Some (objs σ !! other)
  | Dtor this => is_Some (objs σ !! this)
  end.

(** The number of live wrappers whose field is [handle], and the reference
    count of [handle] (0 when the object is gone). *)
Definition owners (handle : N) (σ : Heap) : nat :=
  size (filter (λ kv, kv.2 = handle) (objs σ)).

Definition refcount (handle : N) (σ : Heap) : nat :=
  default 0%nat (refs σ !! handle).

(** Retains and releases are balanced: every live API object is counted
    once per wrapper that holds it, and objects no wrapper holds are gone. *)
Definition balanced (σ : Heap) : Prop :=
  (∀ handle, refs σ !! handle ≠ Some 0%nat) ∧
  (∀ handle, handle ≠ 0%N → refcount handle σ = owners handle σ).

(** Counting in the call log and in programs: the retain calls and the
    release calls on a handle, and the objects created under it. *)
Definition call_handle (c : ApiCall) : N :=
  match c with Retain _ h | Release _ h => h end.

Definition call_class (c : ApiCall) : RefClass :=
  match c with Retain cls _ | Release cls _ => cls end.

Definition is_retain (h : N) (c : ApiCall) : bool :=
  match c with Retain _ h' => bool_decide (h' = h) | Release _ _ => false end.

Definition is_release (h : N) (c : ApiCall) : bool :=
  match c with Release _ h' => bool_decide (h' = h) | Retain _ _ => false end.

Definition is_new (h : N) (op : RefOp) : bool :=
  match op with New _ h' => bool_decide (h' = h) | _ => false end.

Definition count {A} (p : A → bool) (l : list A) : nat :=
  length (filter (λ x, p x) l).

(** ** The Op catalog *)

Module Ops.
Inductive OpKind :=
  | InputProcess | Conv | ConcatConv | Pool | Upsample | Autoexposure
  | OutputProcess | ImageCopy.

Global Instance OpKind_eq_dec : EqDecision OpKind.
Proof. solve_decision. Defined.

Definition catalog : list OpKind :=
  [InputProcess; Conv; ConcatConv; Pool; Upsample; Autoexposure;
   OutputProcess; ImageCopy].

(** Descriptor types taken by reference-to-const. *)
Inductive Desc :=
  | ConvDesc | ConcatConvDesc | PoolDesc | UpsampleDesc | ImageDesc
  | InputProcessDesc | OutputProcessDesc.

Global Instance Desc_eq_dec : EqDecision Desc.
Proof. solve_decision. Defined.

(** A factory method [std::shared_ptr<result> name(const param&)];
    [param] is [None] for a method without parameters. *)
Record Factory := mkFactory {
  name : string;
  param : option Desc;
  result : OpKind
}.

Global Instance Factory_eq_dec : EqDecision Factory.
Proof. solve_decision. Defined.

(** [CUDADevice], lines 56-64. *)
Definition CUDADevice_factories : list Factory :=
  [ mkFactory "newConv" (Some ConvDesc) Conv;
    mkFactory "newConcatConv" (Some ConcatConvDesc) ConcatConv;
    mkFactory "newPool" (Some PoolDesc) Pool;
    mkFactory "newUpsample" (Some UpsampleDesc) Upsample;
    mkFactory "newAutoexposure" (Some ImageDesc) Autoexposure;
    mkFactory "newInputProcess" (Some InputProcessDesc) InputProcess;
    mkFactory "newOutputProcess" (Some OutputProcessDesc) OutputProcess;
    mkFactory "newImageCopy" None ImageCopy ].

Inductive Method := finalize | submit.

Global Instance Method_eq_dec : EqDecision Method.
Proof. solve_decision. Defined.

(** A concrete Op class: its base, the descriptor its constructor takes
    next to the engine, and the members it declares with [override]. *)
Record OpClass := mkOpClass {
  class_name : string;
  base : OpKind;
  ctor_desc : option Desc;
  overrides : list Method
}.

(** [cpu_input_process.h] and [bnns_pool.h]. *)
Definition CPUInputProcess : OpClass :=
  mkOpClass "CPUInputProcess" InputProcess (Some InputProcessDesc) [submit].

Definition BNNSPool : OpClass :=
  mkOpClass "BNNSPool" Pool (Some PoolDesc) [finalize; submit].

(** Modelled from the spec: the base classes of the Ops are declared in
    headers that are not among the files embedded here.  "Each Op variant
    [...] is polymorphic over the capability set {finalize, submit}": every
    variant offers both, and a concrete class inherits what it does not
    override. *)
Definition capabilities (k : OpKind) : list Method := [finalize; submit].

Definition supports (c : OpClass) (m : Method) : bool :=
  bool_decide (m ∈ overrides c) || bool_decide (m ∈ capabilities (base c)).

(** The factory that constructs a variant. *)
Definition factory_of (k : OpKind) : option Factory :=
  list_find (λ f, result f = k) CUDADevice_factories ≫= λ p, Some p.2.
End Ops.

(* ===================================================================== *)
(** * Part II: theorems                                                   *)
(* ===================================================================== *)

(** ** Arithmetic of one dimension of a partition *)

Lemma ceil_div_covers (e g : Z) : 0 ≤ e → 0 < g → e ≤ ceil_div e g * g.
Proof.
  intros He Hg. unfold ceil_div.
  rewrite Z.quot_div_nonneg by lia.
  pose proof (Z.div_mod (e + g - 1) g) as Hdm.
  pose proof (Z.mod_pos_bound (e + g - 1) g Hg). lia.
Qed.

Lemma ceil_div_block (e g c : Z) :
  0 < g → 0 ≤ c < e → 0 ≤ c `div` g < ceil_div e g.
Proof.
  intros Hg Hc. unfold ceil_div.
  rewrite Z.quot_div_nonneg by lia. split.
  - apply Z.div_pos; lia.
  - apply Z.div_lt_upper_bound; [lia|].
    pose proof (Z.div_mod (e + g - 1) g) as Hdm.
    pose proof (Z.mod_pos_bound (e + g - 1) g Hg).
    pose proof (Z.div_mod c g) as Hc'.
    pose proof (Z.mod_pos_bound c g Hg). nia.
Qed.

Lemma split_index_unique (g b t b' t' : Z) :
  0 ≤ t < g → 0 ≤ t' < g → b * g + t = b' * g + t' → b = b' ∧ t = t'.
Proof. intros Ht Ht' Heq. assert (b = b') by nia. subst. lia. Qed.

Lemma split_index_exists (e g c : Z) :
  0 < g → 0 ≤ c < e →
  ∃ b t, (0 ≤ b < ceil_div e g) ∧ (0 ≤ t < g) ∧ c = b * g + t.
Proof.
  intros Hg Hc. exists (c `div` g), (c `mod` g).
  split; [by apply ceil_div_block|]. split.
  - apply Z.mod_pos_bound; lia.
  - pose proof (Z.div_mod c g). lia.
Qed.

(** ** Grids: membership, absence of duplicates, size *)

Lemma NoDup_list_cprod {A B} (l : list A) (k : list B) :
  NoDup l → NoDup k → NoDup (cprod l k).
Proof.
  intros Hl Hk. unfold cprod, list_cprod. apply NoDup_bind; [| |done].
  - intros x1 x2 [a b] _ _ Hx1 Hx2.
    apply list_elem_of_fmap in Hx1 as (? & [= -> _] & _).
    apply list_elem_of_fmap in Hx2 as (? & [= -> _] & _). done.
  - intros x _. apply NoDup_fmap_2_strong; [|done].
    by intros ?? _ _ [= ->].
Qed.

Lemma length_list_cprod {A B} (l : list A) (k : list B) :
  length (cprod l k) = (length l * length k)%nat.
Proof. rewrite list_cprod_list_prod. apply length_prod. Qed.

Lemma NoDup_coords1 (n : Z) : NoDup (coords n).
Proof. apply NoDup_seqZ. Qed.

Lemma NoDup_coords2 (n : Z * Z) : NoDup (coords n).
Proof. apply NoDup_list_cprod; apply NoDup_seqZ. Qed.

Lemma NoDup_coords3 (n : Z * Z * Z) : NoDup (coords n).
Proof.
  apply NoDup_list_cprod; [apply NoDup_list_cprod|]; apply NoDup_seqZ.
Qed.

Lemma elem_of_coords1 (c n : Z) : c ∈ coords n ↔ in_range1 c n.
Proof. unfold coords, coords1, in_range1. rewrite elem_of_seqZ. lia. Qed.

Lemma elem_of_coords2 (c n : Z * Z) : c ∈ coords n ↔ in_range2 c n.
Proof.
  unfold coords, coords2, in_range2.
  rewrite list_elem_of_cprod, !elem_of_seqZ. lia.
Qed.

Lemma elem_of_coords3 (c n : Z * Z * Z) : c ∈ coords n ↔ in_range3 c n.
Proof.
  unfold coords, coords3, in_range3.
  rewrite !list_elem_of_cprod, !elem_of_seqZ. lia.
Qed.

Section grid_facts.
Context {D : Type} `{Coords D}.

Lemma elem_of_grid (th : Thread D) (n g : D) :
  th ∈ grid n g ↔
  blockIdx th ∈ coords n ∧ threadIdx th ∈ coords g ∧
  blockDim th = g ∧ gridDim th = n.
Proof.
  unfold grid. rewrite list_elem_of_fmap. split.
  - intros ([b t] & -> & Hbt). apply list_elem_of_cprod in Hbt as [??]. done.
  - intros (Hb & Ht & <- & <-). exists (blockIdx th, threadIdx th). split.
    + by destruct th.
    + by apply list_elem_of_cprod.
Qed.

Lemma NoDup_grid (n g : D) :
  NoDup (coords n) → NoDup (coords g) → NoDup (grid n g).
Proof.
  intros Hn Hg. unfold grid.
  apply NoDup_fmap_2_strong; [|by apply NoDup_list_cprod].
  intros [b t] [b' t'] _ _ [= -> ->]. done.
Qed.

Lemma length_grid (n g : D) :
  length (grid n g) = (length (coords n) * length (coords g))%nat.
Proof. unfold grid. by rewrite length_fmap, length_list_cprod. Qed.
End grid_facts.

(** ** Guarded and unguarded kernels as folds over the invoked items *)

Section invocations.
Context {T A S : Type}.
Variables (item : T → A) (ok : A → bool).

Lemma foldl_guarded_record (ths : list T) (tr : list A) :
  foldl (λ s th, if ok (item th) then record (item th) s else s) tr ths
  = tr ++ filter (λ it, ok it) (item <$> ths).
Proof.
  revert tr. induction ths as [|th ths IH]; intros tr; simpl.
  - by rewrite app_nil_r.
  - rewrite IH, filter_cons. unfold record.
    destruct (ok (item th)); simpl; [|done].
    by rewrite <-app_assoc.
Qed.

Lemma foldl_guarded_body (f : A → S → S) (ths : list T) (st : S) :
  foldl (λ s th, if ok (item th) then f (item th) s else s) st ths
  = foldl (λ s it, f it s) st (filter (λ it, ok it) (item <$> ths)).
Proof.
  revert st. induction ths as [|th ths IH]; intros st; simpl; [done|].
  rewrite IH, filter_cons. by destruct (ok (item th)).
Qed.
End invocations.

(** ** The basic kernels: which items reach the body *)

Lemma basicCUDAKernel1_invoked (globalSize numGroups groupSize : Z) :
  launch numGroups groupSize (basicCUDAKernel1 globalSize record) []
  = filter (λ it, bool_decide (getId it < getRange it))
      (newWorkItem1 globalSize <$> grid numGroups groupSize).
Proof.
  unfold launch, basicCUDAKernel1.
  exact (foldl_guarded_record (newWorkItem1 globalSize)
           (λ it, bool_decide (getId it < getRange it))
           (grid numGroups groupSize) []).
Qed.

Lemma basicCUDAKernel2_invoked (globalSize numGroups groupSize : Z * Z) :
  launch numGroups groupSize (basicCUDAKernel2 globalSize record) []
  = filter (λ it, bool_decide ((getId it).1 < (getRange it).1) &&
                  bool_decide ((getId it).2 < (getRange it).2))
      (newWorkItem2 globalSize <$> grid numGroups groupSize).
Proof.
  unfold launch, basicCUDAKernel2.
  exact (foldl_guarded_record (newWorkItem2 globalSize)
           (λ it, bool_decide ((getId it).1 < (getRange it).1) &&
                  bool_decide ((getId it).2 < (getRange it).2))
           (grid numGroups groupSize) []).
Qed.

Lemma basicCUDAKernel3_invoked (globalSize numGroups groupSize : Z * Z * Z) :
  launch numGroups groupSize (basicCUDAKernel3 globalSize record) []
  = filter (λ it, bool_decide ((getId it).1.1 < (getRange it).1.1) &&
                  bool_decide ((getId it).1.2 < (getRange it).1.2) &&
                  bool_decide ((getId it).2 < (getRange it).2))
      (newWorkItem3 globalSize <$> grid numGroups groupSize).
Proof.
  unfold launch, basicCUDAKernel3.
  exact (foldl_guarded_record (newWorkItem3 globalSize)
           (λ it, bool_decide ((getId it).1.1 < (getRange it).1.1) &&
                  bool_decide ((getId it).1.2 < (getRange it).1.2) &&
                  bool_decide ((getId it).2 < (getRange it).2))
           (grid numGroups groupSize) []).
Qed.

Lemma basicCUDAKernel1_body {S} (globalSize numGroups groupSize : Z)
    (f : WorkItem Z → S → S) (st : S) :
  launch numGroups groupSize (basicCUDAKernel1 globalSize f) st
  = foldl (λ s it, f it s) st
      (launch numGroups groupSize (basicCUDAKernel1 globalSize record) []).
Proof.
  rewrite basicCUDAKernel1_invoked. unfold launch, basicCUDAKernel1.
  exact (foldl_guarded_body (newWorkItem1 globalSize)
           (λ it, bool_decide (getId it < getRange it))
           f (grid numGroups groupSize) st).
Qed.

Lemma basicCUDAKernel2_body {S} (globalSize numGroups groupSize : Z * Z)
    (f : WorkItem (Z * Z) → S → S) (st : S) :
  launch numGroups groupSize (basicCUDAKernel2 globalSize f) st
  = foldl (λ s it, f it s) st
      (launch numGroups groupSize (basicCUDAKernel2 globalSize record) []).
Proof.
  rewrite basicCUDAKernel2_invoked. unfold launch, basicCUDAKernel2.
  exact (foldl_guarded_body (newWorkItem2 globalSize)
           (λ it, bool_decide ((getId it).1 < (getRange it).1) &&
                  bool_decide ((getId it).2 < (getRange it).2))
           f (grid numGroups groupSize) st).
Qed.

Lemma basicCUDAKernel3_body {S} (globalSize numGroups groupSize : Z * Z * Z)
    (f : WorkItem (Z * Z * Z) → S → S) (st : S) :
  launch numGroups groupSize (basicCUDAKernel3 globalSize f) st
  = foldl (λ s it, f it s) st
      (launch numGroups groupSize (basicCUDAKernel3 globalSize record) []).
Proof.
  rewrite basicCUDAKernel3_invoked. unfold launch, basicCUDAKernel3.
  exact (foldl_guarded_body (newWorkItem3 globalSize)
           (λ it, bool_decide ((getId it).1.1 < (getRange it).1.1) &&
                  bool_decide ((getId it).1.2 < (getRange it).1.2) &&
                  bool_decide ((getId it).2 < (getRange it).2))
           f (grid numGroups groupSize) st).
Qed.

(** Every item a basic kernel passes to its body carries the global extent
    as its range and an index below it. *)
Lemma basicCUDAKernel1_in_range (globalSize numGroups groupSize : Z) :
  Forall (λ it, getRange it = globalSize ∧ getId it < globalSize)
    (launch numGroups groupSize (basicCUDAKernel1 globalSize record) []).
Proof.
  rewrite basicCUDAKernel1_invoked. apply Forall_forall. intros it Hit.
  apply list_elem_of_filter in Hit as [Hok Hit].
  apply list_elem_of_fmap in Hit as (th & -> & _).
  apply bool_decide_unpack in Hok. done.
Qed.

Lemma basicCUDAKernel2_in_range (globalSize numGroups groupSize : Z * Z) :
  Forall (λ it, getRange it = globalSize ∧
                (getId it).1 < globalSize.1 ∧ (getId it).2 < globalSize.2)
    (launch numGroups groupSize (basicCUDAKernel2 globalSize record) []).
Proof.
  rewrite basicCUDAKernel2_invoked. apply Forall_forall. intros it Hit.
  apply list_elem_of_filter in Hit as [Hok Hit].
  apply list_elem_of_fmap in Hit as (th & -> & _).
  apply andb_prop_elim in Hok as [H1 H2].
  apply bool_decide_unpack in H1, H2. done.
Qed.

Lemma basicCUDAKernel3_in_range (globalSize numGroups groupSize : Z * Z * Z) :
  Forall (λ it, getRange it = globalSize ∧
                (getId it).1.1 < globalSize.1.1 ∧
                (getId it).1.2 < globalSize.1.2 ∧
                (getId it).2 < globalSize.2)
    (launch numGroups groupSize (basicCUDAKernel3 globalSize record) []).
Proof.
  rewrite basicCUDAKernel3_invoked. apply Forall_forall. intros it Hit.
  apply list_elem_of_filter in Hit as [Hok Hit].
  apply list_elem_of_fmap in Hit as (th & -> & _).
  apply andb_prop_elim in Hok as [H12 H3].
  apply andb_prop_elim in H12 as [H1 H2].
  apply bool_decide_unpack in H1, H2, H3. done.
Qed.

(** Claim C1.  For every 1D, 2D and 3D global extent, every launch
    configuration and every body [f], the basic kernel passes to [f] only
    work items whose index is strictly below the extent in every dimension:
    the items recorded by a launch all satisfy the bound, the effect of the
    launch with any body is the effect of running that body on exactly these
    items, and a thread whose index is out of range in some dimension leaves
    the state as it was. *)
Theorem basicCUDAKernel_guard :
  (∀ globalSize numGroups groupSize : Z,
     let invoked :=
       launch numGroups groupSize (basicCUDAKernel1 globalSize record) [] in
     Forall (λ it, getRange it = globalSize ∧ getId it < globalSize) invoked ∧
     (∀ S (f : WorkItem Z → S → S) (st : S),
        launch numGroups groupSize (basicCUDAKernel1 globalSize f) st
        = foldl (λ s it, f it s) st invoked) ∧
     (∀ S (f : WorkItem Z → S → S) (th : Thread Z) (st : S),
        ¬ getId (newWorkItem1 globalSize th) < globalSize →
        basicCUDAKernel1 globalSize f th st = st)) ∧
  (∀ globalSize numGroups groupSize : Z * Z,
     let invoked :=
       launch numGroups groupSize (basicCUDAKernel2 globalSize record) [] in
     Forall (λ it, getRange it = globalSize ∧
                   (getId it).1 < globalSize.1 ∧
                   (getId it).2 < globalSize.2) invoked ∧
     (∀ S (f : WorkItem (Z * Z) → S → S) (st : S),
        launch numGroups groupSize (basicCUDAKernel2 globalSize f) st
        = foldl (λ s it, f it s) st invoked) ∧
     (∀ S (f : WorkItem (Z * Z) → S → S) (th : Thread (Z * Z)) (st : S),
        ¬ ((getId (newWorkItem2 globalSize th)).1 < globalSize.1 ∧
           (getId (newWorkItem2 globalSize th)).2 < globalSize.2) →
        basicCUDAKernel2 globalSize f th st = st)) ∧
  (∀ globalSize numGroups groupSize : Z * Z * Z,
     let invoked :=
       launch numGroups groupSize (basicCUDAKernel3 globalSize record) [] in
     Forall (λ it, getRange it = globalSize ∧
                   (getId it).1.1 < globalSize.1.1 ∧
                   (getId it).1.2 < globalSize.1.2 ∧
                   (getId it).2 < globalSize.2) invoked ∧
     (∀ S (f : WorkItem (Z * Z * Z) → S → S) (st : S),
        launch numGroups groupSize (basicCUDAKernel3 globalSize f) st
        = foldl (λ s it, f it s) st invoked) ∧
     (∀ S (f : WorkItem (Z * Z * Z) → S → S) (th : Thread (Z * Z * Z)) (st : S),
        ¬ ((getId (newWorkItem3 globalSize th)).1.1 < globalSize.1.1 ∧
           (getId (newWorkItem3 globalSize th)).1.2 < globalSize.1.2 ∧
           (getId (newWorkItem3 globalSize th)).2 < globalSize.2) →
        basicCUDAKernel3 globalSize f th st = st)).
Proof.
  split_and!.
  - intros gs n g invoked. split_and!.
    + apply basicCUDAKernel1_in_range.
    + intros. apply basicCUDAKernel1_body.
    + intros S f th st Hout. unfold basicCUDAKernel1.
      by rewrite bool_decide_eq_false_2.
  - intros gs n g invoked. split_and!.
    + apply basicCUDAKernel2_in_range.
    + intros. apply basicCUDAKernel2_body.
    + intros S f th st Hout. unfold basicCUDAKernel2.
      repeat (case_bool_decide; simpl; [|done]). by destruct Hout.
  - intros gs n g invoked. split_and!.
    + apply basicCUDAKernel3_in_range.
    + intros. apply basicCUDAKernel3_body.
    + intros S f th st Hout. unfold basicCUDAKernel3.
      repeat (case_bool_decide; simpl; [|done]). by destruct Hout.
Qed.

(** ** What an accepted launch does to the memory *)

Lemma memory_checkError {S} (error : cudaError_t) (dev : CUDADevice S) :
  memory (checkError error dev) = memory dev.
Proof. by destruct error. Qed.

Lemma runKernelAsync1_memory {S} (globalSize : Z) (f : WorkItem Z → S → S)
    (dev : CUDADevice S) :
  memory (runKernelAsync1 cudaSuccess globalSize f dev)
  = launch (ceil_div globalSize (suggestWorkGroupSize1 globalSize))
      (suggestWorkGroupSize1 globalSize)
      (basicCUDAKernel1 globalSize f) (memory dev).
Proof. unfold runKernelAsync1. simpl. by rewrite memory_checkError. Qed.

Lemma runKernelAsync2_memory {S} (globalSize : Z * Z)
    (f : WorkItem (Z * Z) → S → S) (dev : CUDADevice S) :
  memory (runKernelAsync2 cudaSuccess globalSize f dev)
  = launch (ceil_div2 globalSize (suggestWorkGroupSize2 globalSize))
      (suggestWorkGroupSize2 globalSize)
      (basicCUDAKernel2 globalSize f) (memory dev).
Proof. unfold runKernelAsync2. simpl. by rewrite memory_checkError. Qed.

Lemma runKernelAsync3_memory {S} (globalSize : Z * Z * Z)
    (f : WorkItem (Z * Z * Z) → S → S) (dev : CUDADevice S) :
  memory (runKernelAsync3 cudaSuccess globalSize f dev)
  = launch (ceil_div3 globalSize (suggestWorkGroupSize3 globalSize))
      (suggestWorkGroupSize3 globalSize)
      (basicCUDAKernel3 globalSize f) (memory dev).
Proof. unfold runKernelAsync3. simpl. by rewrite memory_checkError. Qed.

Lemma runKernelAsyncGroup_memory {D S} `{Coords D} (numGroups groupSize : D)
    (f : WorkGroupItem D → S → S) (dev : CUDADevice S) :
  memory (runKernelAsyncGroup cudaSuccess numGroups groupSize f dev)
  = launch numGroups groupSize (groupCUDAKernel f) (memory dev).
Proof. unfold runKernelAsyncGroup. simpl. by rewrite memory_checkError. Qed.

(** ** The work-group kernel: no guard *)

Section group_kernel.
Context {D : Type} `{Coords D}.

Lemma foldl_record_fmap {T A} (h : T → A) (ths : list T) (tr : list A) :
  foldl (λ s th, record (h th) s) tr ths = tr ++ (h <$> ths).
Proof.
  revert tr. induction ths as [|th ths IH]; intros tr; simpl.
  - by rewrite app_nil_r.
  - rewrite IH. unfold record. by rewrite <-app_assoc.
Qed.

Lemma groupCUDAKernel_invoked (numGroups groupSize : D) :
  launch numGroups groupSize (groupCUDAKernel record) []
  = newWorkGroupItem <$> grid numGroups groupSize.
Proof.
  unfold launch, groupCUDAKernel.
  exact (foldl_record_fmap newWorkGroupItem (grid numGroups groupSize) []).
Qed.

Lemma groupCUDAKernel_body {S} (numGroups groupSize : D)
    (f : WorkGroupItem D → S → S) (st : S) :
  launch numGroups groupSize (groupCUDAKernel f) st
  = foldl (λ s it, f it s) st
      (launch numGroups groupSize (groupCUDAKernel record) []).
Proof.
  rewrite groupCUDAKernel_invoked. unfold launch, groupCUDAKernel.
  generalize (grid numGroups groupSize) as ths. intros ths. revert st.
  induction ths as [|th ths IH]; intros st; simpl; [done|apply IH].
Qed.

Lemma groupCUDAKernel_NoDup (numGroups groupSize : D) :
  NoDup (coords numGroups) → NoDup (coords groupSize) →
  NoDup (launch numGroups groupSize (groupCUDAKernel record) []).
Proof.
  intros Hn Hg. rewrite groupCUDAKernel_invoked.
  apply NoDup_fmap_2_strong; [|by apply NoDup_grid].
  intros [] [] _ _ [= -> -> -> ->]. done.
Qed.

Lemma groupCUDAKernel_length (numGroups groupSize : D) :
  length (launch numGroups groupSize (groupCUDAKernel record) [])
  = (length (coords numGroups) * length (coords groupSize))%nat.
Proof. by rewrite groupCUDAKernel_invoked, length_fmap, length_grid. Qed.
End group_kernel.

Lemma length_coords1 (n : Z) : length (coords n) = Z.to_nat n.
Proof. unfold coords, coords1. apply length_seqZ. Qed.

Lemma length_coords2 (n : Z * Z) :
  length (coords n) = (Z.to_nat n.1 * Z.to_nat n.2)%nat.
Proof. unfold coords, coords2. by rewrite length_list_cprod, !length_seqZ. Qed.

Lemma length_coords3 (n : Z * Z * Z) :
  length (coords n) = (Z.to_nat n.1.1 * Z.to_nat n.1.2 * Z.to_nat n.2)%nat.
Proof.
  unfold coords, coords3. by rewrite !length_list_cprod, !length_seqZ.
Qed.

(** Claim C9.  The explicit-partition overload launches [groupCUDAKernel],
    which has no range check: for every pair [numGroups], [groupSize] (in one,
    two and three dimensions) the body is invoked for every thread of the
    grid, once each, so the number of invocations is the number of groups
    times the size of a group, and the effect of [runKernelAsync] on the
    memory is the body folded over all these items. *)
Theorem groupCUDAKernel_unguarded :
  (∀ numGroups groupSize : Z,
     let invoked :=
       launch numGroups groupSize (groupCUDAKernel record) [] in
     invoked = newWorkGroupItem <$> grid numGroups groupSize ∧
     NoDup invoked ∧
     length invoked = (Z.to_nat numGroups * Z.to_nat groupSize)%nat ∧
     ∀ S (f : WorkGroupItem Z → S → S) (dev : CUDADevice S),
       memory (runKernelAsyncGroup cudaSuccess numGroups groupSize f dev)
       = foldl (λ s it, f it s) (memory dev) invoked) ∧
  (∀ numGroups groupSize : Z * Z,
     let invoked :=
       launch numGroups groupSize (groupCUDAKernel record) [] in
     invoked = newWorkGroupItem <$> grid numGroups groupSize ∧
     NoDup invoked ∧
     length invoked
     = ((Z.to_nat numGroups.1 * Z.to_nat numGroups.2) *
        (Z.to_nat groupSize.1 * Z.to_nat groupSize.2))%nat ∧
     ∀ S (f : WorkGroupItem (Z * Z) → S → S) (dev : CUDADevice S),
       memory (runKernelAsyncGroup cudaSuccess numGroups groupSize f dev)
       = foldl (λ s it, f it s) (memory dev) invoked) ∧
  (∀ numGroups groupSize : Z * Z * Z,
     let invoked :=
       launch numGroups groupSize (groupCUDAKernel record) [] in
     invoked = newWorkGroupItem <$> grid numGroups groupSize ∧
     NoDup invoked ∧
     length invoked
     = ((Z.to_nat numGroups.1.1 * Z.to_nat numGroups.1.2 *
         Z.to_nat numGroups.2) *
        (Z.to_nat groupSize.1.1 * Z.to_nat groupSize.1.2 *
         Z.to_nat groupSize.2))%nat ∧
     ∀ S (f : WorkGroupItem (Z * Z * Z) → S → S) (dev : CUDADevice S),
       memory (runKernelAsyncGroup cudaSuccess numGroups groupSize f dev)
       = foldl (λ s it, f it s) (memory dev) invoked).
Proof.
  split_and!; intros n g invoked; subst invoked; split_and!.
  - apply groupCUDAKernel_invoked.
  - apply groupCUDAKernel_NoDup; apply NoDup_coords1.
  - by rewrite groupCUDAKernel_length, !length_coords1.
  - intros S f dev. rewrite runKernelAsyncGroup_memory.
    apply groupCUDAKernel_body.
  - apply groupCUDAKernel_invoked.
  - apply groupCUDAKernel_NoDup; apply NoDup_coords2.
  - by rewrite groupCUDAKernel_length, !length_coords2.
  - intros S f dev. rewrite runKernelAsyncGroup_memory.
    apply groupCUDAKernel_body.
  - apply groupCUDAKernel_invoked.
  - apply groupCUDAKernel_NoDup; apply NoDup_coords3.
  - by rewrite groupCUDAKernel_length, !length_coords3.
  - intros S f dev. rewrite runKernelAsyncGroup_memory.
    apply groupCUDAKernel_body.
Qed.

(** Claim C7.  The group size used by [runKernelAsync(globalSize, f)] is 256
    in one dimension, 16 x 16 in two and 1 x 16 x 16 in three, whatever the
    global extent; these are the block dimensions of the launch it enqueues. *)
Theorem suggestWorkGroupSize_fixed :
  ∀ (g1 : Z) (g2 : Z * Z) (g3 : Z * Z * Z),
    suggestWorkGroupSize1 g1 = 256 ∧
    suggestWorkGroupSize2 g2 = (16, 16) ∧
    suggestWorkGroupSize3 g3 = (1, 16, 16) ∧
    (∀ S status (f : WorkItem Z → S → S) dev,
       runKernelAsync1 status g1 f dev
       = let dev' := cudaLaunchKernel status (ceil_div g1 256) 256
                       (basicCUDAKernel1 g1 f) dev in
         checkError (cudaGetLastError dev').1 (cudaGetLastError dev').2) ∧
    (∀ S status (f : WorkItem (Z * Z) → S → S) dev,
       runKernelAsync2 status g2 f dev
       = let dev' := cudaLaunchKernel status (ceil_div2 g2 (16, 16)) (16, 16)
                       (basicCUDAKernel2 g2 f) dev in
         checkError (cudaGetLastError dev').1 (cudaGetLastError dev').2) ∧
    (∀ S status (f : WorkItem (Z * Z * Z) → S → S) dev,
       runKernelAsync3 status g3 f dev
       = let dev' := cudaLaunchKernel status (ceil_div3 g3 (1, 16, 16))
                       (1, 16, 16) (basicCUDAKernel3 g3 f) dev in
         checkError (cudaGetLastError dev').1 (cudaGetLastError dev').2).
Proof. intros g1 g2 g3. split_and!; reflexivity. Qed.

(** ** Coverage of the extent by the partition of [runKernelAsync] *)

Section visited.
Context {D : Type}.
Variables (item : Thread D → WorkItem D) (ok : WorkItem D → bool).

Lemma elem_of_visited (c : D) (ths : list (Thread D)) :
  c ∈ getId <$> filter (λ it, ok it) (item <$> ths) ↔
  ∃ th, th ∈ ths ∧ ok (item th) ∧ getId (item th) = c.
Proof.
  rewrite list_elem_of_fmap. split.
  - intros (it & -> & Hit). apply list_elem_of_filter in Hit as [Hok Hit].
    apply list_elem_of_fmap in Hit as (th & -> & Hth). eauto.
  - intros (th & Hth & Hok & <-). exists (item th). split; [done|].
    apply list_elem_of_filter. split; [done|].
    by apply list_elem_of_fmap_2.
Qed.

Lemma NoDup_visited (ths : list (Thread D)) :
  NoDup ths →
  (∀ th th', th ∈ ths → th' ∈ ths →
     getId (item th) = getId (item th') → th = th') →
  NoDup (getId <$> filter (λ it, ok it) (item <$> ths)).
Proof.
  intros Hnd Hinj. apply NoDup_fmap_2_strong.
  - intros it it' Hit Hit' Heq.
    apply list_elem_of_filter in Hit as [_ Hit].
    apply list_elem_of_filter in Hit' as [_ Hit'].
    apply list_elem_of_fmap in Hit as (th & -> & Hth).
    apply list_elem_of_fmap in Hit' as (th' & -> & Hth').
    f_equal. by apply Hinj.
  - apply NoDup_filter. apply NoDup_fmap_2_strong; [|done].
    intros th th' Hth Hth' Heq. apply Hinj; [done..|by rewrite Heq].
Qed.
End visited.

Lemma runKernelAsync1_covers (globalSize : Z) :
  0 ≤ globalSize →
  let groupSize := suggestWorkGroupSize1 globalSize in
  let numGroups := ceil_div globalSize groupSize in
  let visited :=
    getId <$> launch numGroups groupSize
                (basicCUDAKernel1 globalSize record) [] in
  globalSize ≤ numGroups * groupSize ∧
  NoDup visited ∧
  (∀ c, c ∈ visited ↔ in_range1 c globalSize).
Proof.
  intros He groupSize numGroups visited. subst visited groupSize numGroups.
  unfold suggestWorkGroupSize1. rewrite basicCUDAKernel1_invoked.
  split_and!.
  - apply ceil_div_covers; lia.
  - apply NoDup_visited; [apply NoDup_grid; apply NoDup_coords1|].
    intros [b t bd gd] [b' t' bd' gd'] Hth Hth'.
    apply elem_of_grid in Hth as (_ & Ht & Hbd & Hgd).
    apply elem_of_grid in Hth' as (_ & Ht' & Hbd' & Hgd').
    apply elem_of_coords1 in Ht, Ht'. unfold in_range1 in *.
    simpl in *. subst. intros Heq.
    apply split_index_unique in Heq as [-> ->]; done.
  - intros c. rewrite elem_of_visited. unfold in_range1. split.
    + intros ([b t bd gd] & Hth & Hok & <-).
      apply elem_of_grid in Hth as (Hb & Ht & Hbd & Hgd).
      apply elem_of_coords1 in Hb, Ht. unfold in_range1 in *.
      apply bool_decide_unpack in Hok. simpl in *. subst. nia.
    + intros Hc.
      destruct (split_index_exists globalSize 256 c) as (b & t & Hb & Ht & ->);
        [lia|done|].
      exists (mkThread b t 256 (ceil_div globalSize 256)). split_and!.
      * apply elem_of_grid. simpl.
        by rewrite !elem_of_coords1.
      * apply bool_decide_pack. simpl. lia.
      * done.
Qed.

(** Unpacks membership of threads in a grid into bounds on their fields. *)
Ltac grid_bounds :=
  repeat match goal with
  | H : _ ∈ grid _ _ |- _ =>
      apply elem_of_grid in H as (?Hb & ?Ht & ?Hbd & ?Hgd)
  | H : _ ∈ coords _ |- _ =>
      first [ apply elem_of_coords1 in H
            | apply elem_of_coords2 in H
            | apply elem_of_coords3 in H ]
  end;
  unfold in_range1, in_range2, in_range3 in *; simpl in *; subst; simpl in *.

Lemma runKernelAsync2_covers (globalSize : Z * Z) :
  0 ≤ globalSize.1 → 0 ≤ globalSize.2 →
  let groupSize := suggestWorkGroupSize2 globalSize in
  let numGroups := ceil_div2 globalSize groupSize in
  let visited :=
    getId <$> launch numGroups groupSize
                (basicCUDAKernel2 globalSize record) [] in
  (globalSize.1 ≤ numGroups.1 * groupSize.1 ∧
   globalSize.2 ≤ numGroups.2 * groupSize.2) ∧
  NoDup visited ∧
  (∀ c, c ∈ visited ↔ in_range2 c globalSize).
Proof.
  destruct globalSize as [e0 e1].
  unfold suggestWorkGroupSize2, ceil_div2. simpl.
  intros He0 He1. rewrite basicCUDAKernel2_invoked. split_and!.
  - apply ceil_div_covers; lia.
  - apply ceil_div_covers; lia.
  - apply NoDup_visited; [apply NoDup_grid; apply NoDup_coords2|].
    intros [[b0 b1] [t0 t1] bd gd] [[b0' b1'] [t0' t1'] bd' gd'] Hth Hth'.
    grid_bounds. intros [= Heq0 Heq1].
    assert (b0 = b0' ∧ t0 = t0') as [-> ->]
      by (apply (split_index_unique 16); lia).
    assert (b1 = b1' ∧ t1 = t1') as [-> ->]
      by (apply (split_index_unique 16); lia).
    done.
  - intros [c0 c1]. rewrite elem_of_visited. unfold in_range2. simpl. split.
    + intros ([[b0 b1] [t0 t1] bd gd] & Hth & Hok & Hid).
      apply andb_prop_elim in Hok as [Hok0 Hok1].
      apply bool_decide_unpack in Hok0, Hok1.
      grid_bounds. injection Hid as <- <-. lia.
    + intros [Hc0 Hc1].
      destruct (split_index_exists e0 16 c0) as (b0 & t0 & Hb0 & Ht0 & ->);
        [lia|done|].
      destruct (split_index_exists e1 16 c1) as (b1 & t1 & Hb1 & Ht1 & ->);
        [lia|done|].
      exists (mkThread (b0, b1) (t0, t1) (16, 16)
                (ceil_div e0 16, ceil_div e1 16)).
      split; [|split; [|reflexivity]].
      * apply elem_of_grid. simpl. rewrite !elem_of_coords2.
        unfold in_range2. simpl. done.
      * apply andb_prop_intro. split; apply bool_decide_pack; simpl; lia.
Qed.

Lemma runKernelAsync3_covers (globalSize : Z * Z * Z) :
  0 ≤ globalSize.1.1 → 0 ≤ globalSize.1.2 → 0 ≤ globalSize.2 →
  let groupSize := suggestWorkGroupSize3 globalSize in
  let numGroups := ceil_div3 globalSize groupSize in
  let visited :=
    getId <$> launch numGroups groupSize
                (basicCUDAKernel3 globalSize record) [] in
  (globalSize.1.1 ≤ numGroups.1.1 * groupSize.1.1 ∧
   globalSize.1.2 ≤ numGroups.1.2 * groupSize.1.2 ∧
   globalSize.2 ≤ numGroups.2 * groupSize.2) ∧
  NoDup visited ∧
  (∀ c, c ∈ visited ↔ in_range3 c globalSize).
Proof.
  destruct globalSize as [[e0 e1] e2].
  unfold suggestWorkGroupSize3, ceil_div3. simpl.
  intros He0 He1 He2. rewrite basicCUDAKernel3_invoked. split_and!.
  - apply ceil_div_covers; lia.
  - apply ceil_div_covers; lia.
  - apply ceil_div_covers; lia.
  - apply NoDup_visited; [apply NoDup_grid; apply NoDup_coords3|].
    intros [[[b0 b1] b2] [[t0 t1] t2] bd gd]
           [[[b0' b1'] b2'] [[t0' t1'] t2'] bd' gd'] Hth Hth'.
    grid_bounds. intros [= Heq0 Heq1 Heq2].
    assert (b0 = b0' ∧ t0 = t0') as [-> ->]
      by (apply (split_index_unique 1); lia).
    assert (b1 = b1' ∧ t1 = t1') as [-> ->]
      by (apply (split_index_unique 16); lia).
    assert (b2 = b2' ∧ t2 = t2') as [-> ->]
      by (apply (split_index_unique 16); lia).
    done.
  - intros [[c0 c1] c2]. rewrite elem_of_visited. unfold in_range3. simpl.
    split.
    + intros ([[[b0 b1] b2] [[t0 t1] t2] bd gd] & Hth & Hok & Hid).
      apply andb_prop_elim in Hok as [Hok01 Hok2].
      apply andb_prop_elim in Hok01 as [Hok0 Hok1].
      apply bool_decide_unpack in Hok0, Hok1, Hok2.
      grid_bounds. injection Hid as <- <- <-. lia.
    + intros (Hc0 & Hc1 & Hc2).
      destruct (split_index_exists e0 1 c0) as (b0 & t0 & Hb0 & Ht0 & ->);
        [lia|done|].
      destruct (split_index_exists e1 16 c1) as (b1 & t1 & Hb1 & Ht1 & ->);
        [lia|done|].
      destruct (split_index_exists e2 16 c2) as (b2 & t2 & Hb2 & Ht2 & ->);
        [lia|done|].
      exists (mkThread (b0, b1, b2) (t0, t1, t2) (1, 16, 16)
                (ceil_div e0 1, ceil_div e1 16, ceil_div e2 16)).
      split; [|split; [|reflexivity]].
      * apply elem_of_grid. simpl. rewrite !elem_of_coords3.
        unfold in_range3. simpl. done.
      * repeat (apply andb_prop_intro; split);
          apply bool_decide_pack; simpl; lia.
Qed.

(** Claim C2.  For every global extent with non-negative components, the
    partition [runKernelAsync(globalSize, f)] computes - [groupSize] from
    [suggestWorkGroupSize], [numGroups] by ceiling division - covers the
    extent in every dimension, and the guarded kernel launched on it invokes
    the body on every coordinate of [[0, extent)] exactly once (the visited
    coordinates have no duplicates and are exactly those in range); the memory
    after an accepted launch is the body folded over these invocations. *)
Theorem runKernelAsync_covers_extent :
  ∀ (g1 : Z) (g2 : Z * Z) (g3 : Z * Z * Z),
    0 ≤ g1 →
    0 ≤ g2.1 ∧ 0 ≤ g2.2 →
    0 ≤ g3.1.1 ∧ 0 ≤ g3.1.2 ∧ 0 ≤ g3.2 →
    (let groupSize := suggestWorkGroupSize1 g1 in
     let numGroups := ceil_div g1 groupSize in
     let invoked :=
       launch numGroups groupSize (basicCUDAKernel1 g1 record) [] in
     g1 ≤ numGroups * groupSize ∧
     NoDup (getId <$> invoked) ∧
     (∀ c, c ∈ getId <$> invoked ↔ in_range1 c g1) ∧
     (∀ S (f : WorkItem Z → S → S) dev,
        memory (runKernelAsync1 cudaSuccess g1 f dev)
        = foldl (λ s it, f it s) (memory dev) invoked)) ∧
    (let groupSize := suggestWorkGroupSize2 g2 in
     let numGroups := ceil_div2 g2 groupSize in
     let invoked :=
       launch numGroups groupSize (basicCUDAKernel2 g2 record) [] in
     (g2.1 ≤ numGroups.1 * groupSize.1 ∧ g2.2 ≤ numGroups.2 * groupSize.2) ∧
     NoDup (getId <$> invoked) ∧
     (∀ c, c ∈ getId <$> invoked ↔ in_range2 c g2) ∧
     (∀ S (f : WorkItem (Z * Z) → S → S) dev,
        memory (runKernelAsync2 cudaSuccess g2 f dev)
        = foldl (λ s it, f it s) (memory dev) invoked)) ∧
    (let groupSize := suggestWorkGroupSize3 g3 in
     let numGroups := ceil_div3 g3 groupSize in
     let invoked :=
       launch numGroups groupSize (basicCUDAKernel3 g3 record) [] in
     (g3.1.1 ≤ numGroups.1.1 * groupSize.1.1 ∧
      g3.1.2 ≤ numGroups.1.2 * groupSize.1.2 ∧
      g3.2 ≤ numGroups.2 * groupSize.2) ∧
     NoDup (getId <$> invoked) ∧
     (∀ c, c ∈ getId <$> invoked ↔ in_range3 c g3) ∧
     (∀ S (f : WorkItem (Z * Z * Z) → S → S) dev,
        memory (runKernelAsync3 cudaSuccess g3 f dev)
        = foldl (λ s it, f it s) (memory dev) invoked)).
Proof.
  intros g1 g2 g3 H1 [H20 H21] (H30 & H31 & H32). split; [|split].
  - destruct (runKernelAsync1_covers g1 H1) as (Hc & Hnd & Hin).
    cbv zeta. split_and!; [exact Hc|exact Hnd|exact Hin|].
    intros S f dev. rewrite runKernelAsync1_memory.
    apply basicCUDAKernel1_body.
  - destruct (runKernelAsync2_covers g2 H20 H21) as (Hc & Hnd & Hin).
    cbv zeta. split_and!; [apply Hc|apply Hc|exact Hnd|exact Hin|].
    intros S f dev. rewrite runKernelAsync2_memory.
    apply basicCUDAKernel2_body.
  - destruct (runKernelAsync3_covers g3 H30 H31 H32) as (Hc & Hnd & Hin).
    cbv zeta. split_and!; [apply Hc|apply Hc|apply Hc|exact Hnd|exact Hin|].
    intros S f dev. rewrite runKernelAsync3_memory.
    apply basicCUDAKernel3_body.
Qed.

Lemma runKernelAsync_covers_extent_witness :
  (0 ≤ 1000 ∧ (0 ≤ 20 ∧ 0 ≤ 30) ∧ (0 ≤ 2 ∧ 0 ≤ 3 ∧ 0 ≤ 40)) ∧
  (∀ c, c ∈ getId <$> launch (ceil_div 1000 256) 256
                        (basicCUDAKernel1 1000 record) []
        ↔ in_range1 c 1000) ∧
  (∀ c, c ∈ getId <$> launch (ceil_div2 (20, 30) (16, 16)) (16, 16)
                        (basicCUDAKernel2 (20, 30) record) []
        ↔ in_range2 c (20, 30)) ∧
  (∀ c, c ∈ getId <$> launch (ceil_div3 (2, 3, 40) (1, 16, 16)) (1, 16, 16)
                        (basicCUDAKernel3 (2, 3, 40) record) []
        ↔ in_range3 c (2, 3, 40)).
Proof.
  assert (0 ≤ 1000 ∧ (0 ≤ 20 ∧ 0 ≤ 30) ∧ (0 ≤ 2 ∧ 0 ≤ 3 ∧ 0 ≤ 40))
    as Hyp by lia.
  split; [exact Hyp|].
  destruct Hyp as (H1 & H2 & H3).
  destruct (runKernelAsync_covers_extent 1000 (20, 30) (2, 3, 40) H1 H2 H3)
    as ((_ & _ & C1 & _) & (_ & _ & C2 & _) & (_ & _ & C3 & _)).
  split; [exact C1|]. split; [exact C2|exact C3].
Defined.

Lemma basicCUDAKernel_guard_witness :
  ¬ getId (newWorkItem1 3 (mkThread 0 3 4 1)) < 3 ∧
  basicCUDAKernel1 3 record (mkThread 0 3 4 1) [] = [].
Proof.
  destruct basicCUDAKernel_guard as (H1 & _ & _).
  destruct (H1 3 1 4) as (_ & _ & Hnoop).
  assert (¬ getId (newWorkItem1 3 (mkThread 0 3 4 1)) < 3) as Hout
    by (simpl; lia).
  split; [exact Hout|]. apply Hnoop. exact Hout.
Defined.

(** ** The error slot *)

Lemma errorSlot_setError (handle : N) c msg (slots : gmap N ErrorState) :
  errorSlot handle (setError handle c msg slots)
  = recordError c msg (errorSlot handle slots).
Proof. unfold setError, errorSlot at 1. by rewrite lookup_insert_eq. Qed.

Lemma errorSlot_setError_ne (handle handle' : N) c msg
    (slots : gmap N ErrorState) :
  handle ≠ handle' →
  errorSlot handle' (setError handle c msg slots) = errorSlot handle' slots.
Proof.
  intros Hne. unfold setError, errorSlot. by rewrite lookup_insert_ne.
Qed.

Lemma getError_fst (handle : N) (slots : gmap N ErrorState) :
  (getError handle slots).1 = Error.of_c (code (errorSlot handle slots)).
Proof. done. Qed.

Lemma getError_snd (handle : N) (slots : gmap N ErrorState) :
  (getError handle slots).2 = <[handle := noError]> slots.
Proof. done. Qed.

Lemma errorSlot_getError (handle : N) (slots : gmap N ErrorState) :
  errorSlot handle (getError handle slots).2 = noError.
Proof. rewrite getError_snd. unfold errorSlot. by rewrite lookup_insert_eq. Qed.

Lemma errorSlot_getError_ne (handle handle' : N) (slots : gmap N ErrorState) :
  handle ≠ handle' →
  errorSlot handle' (getError handle slots).2 = errorSlot handle' slots.
Proof.
  intros Hne. rewrite getError_snd. unfold errorSlot.
  by rewrite lookup_insert_ne.
Qed.

Lemma of_c_to_c (e : Error.t) : Error.of_c (Error.to_c e) = e.
Proof. by destruct e. Qed.

Lemma to_c_of_c (c : OIDNError) : Error.to_c (Error.of_c c) = c.
Proof. by destruct c. Qed.

Lemma to_c_None (e : Error.t) :
  Error.to_c e = OIDN_ERROR_NONE ↔ e = Error.None.
Proof. by destruct e. Qed.

(** Claim C3.  The error state of a device is one slot holding the first
    error not yet retrieved.  For every device handle, the null handle
    included: [getError] returns the pending code and clears the slot; when
    an error is recorded into an empty slot and a second one follows before
    any retrieval, [getError] returns the first, the second is dropped, the
    next [getError] returns [None], and an error recorded after that is
    returned again.  Slots of other devices are left alone. *)
Theorem getError_first_unretrieved :
  ∀ (handle : N) (slots : gmap N ErrorState)
    (e1 e2 e3 : Error.t) (m1 m2 m3 : string),
    code (errorSlot handle slots) = OIDN_ERROR_NONE →
    e1 ≠ Error.None →
    let slots1 := setError handle (Error.to_c e1) m1 slots in
    let slots2 := setError handle (Error.to_c e2) m2 slots1 in
    let first := getError handle slots2 in
    let second := getError handle first.2 in
    let slots3 := setError handle (Error.to_c e3) m3 second.2 in
    errorSlot handle slots2 = mkErrorState (Error.to_c e1) m1 ∧
    first.1 = e1 ∧
    errorSlot handle first.2 = noError ∧
    second.1 = Error.None ∧
    (getError handle slots3).1 = e3 ∧
    (getError 0%N (setError 0%N (Error.to_c e1) m1 ∅)).1 = e1 ∧
    (∀ handle', handle ≠ handle' →
       errorSlot handle' first.2 = errorSlot handle' slots).
Proof.
  intros handle slots e1 e2 e3 m1 m2 m3 Hempty He1.
  intros slots1 slots2 first second slots3.
  assert (errorSlot handle slots2 = mkErrorState (Error.to_c e1) m1) as Hs2.
  { subst slots2 slots1. rewrite !errorSlot_setError.
    unfold recordError at 2. rewrite decide_True by done.
    unfold recordError. simpl. rewrite decide_False; [done|].
    by rewrite to_c_None. }
  subst slots3 second first. split_and!.
  - done.
  - rewrite getError_fst, Hs2. simpl. apply of_c_to_c.
  - apply errorSlot_getError.
  - by rewrite getError_fst, errorSlot_getError.
  - rewrite getError_fst, errorSlot_setError.
    rewrite errorSlot_getError. unfold recordError.
    rewrite decide_True by done. apply of_c_to_c.
  - rewrite getError_fst, errorSlot_setError. unfold recordError.
    rewrite decide_True by done. apply of_c_to_c.
  - intros handle' Hne. subst slots2 slots1.
    rewrite errorSlot_getError_ne by done.
    by rewrite !errorSlot_setError_ne by done.
Qed.

Lemma getError_first_unretrieved_witness :
  (code (errorSlot 0%N ∅) = OIDN_ERROR_NONE ∧
   Error.InvalidArgument ≠ Error.None) ∧
  let slots2 :=
    setError 0%N OIDN_ERROR_OUT_OF_MEMORY "second"
      (setError 0%N OIDN_ERROR_INVALID_ARGUMENT "first" ∅) in
  (getError 0%N slots2).1 = Error.InvalidArgument ∧
  (getError 0%N (getError 0%N slots2).2).1 = Error.None.
Proof.
  assert (code (errorSlot 0%N ∅) = OIDN_ERROR_NONE) as H1 by reflexivity.
  assert (Error.InvalidArgument ≠ Error.None) as H2 by discriminate.
  split; [by split|].
  destruct (getError_first_unretrieved 0%N ∅
              Error.InvalidArgument Error.OutOfMemory Error.Unknown
              "first" "second" "third" H1 H2)
    as (_ & Hfirst & _ & Hsecond & _).
  split; [exact Hfirst|exact Hsecond].
Defined.

(** Claim C8.  The error codes are exactly the seven kinds None, Unknown,
    InvalidArgument, InvalidOperation, OutOfMemory, UnsupportedHardware and
    Cancelled, one per constant of the C enumeration; the error accessor
    comes with and without a message: both return the same code and clear
    the slot alike, and the one with a message also yields the stored
    string. *)
Theorem error_surface :
  (∀ e : Error.t, e ∈ Error.all) ∧
  NoDup Error.all ∧
  length Error.all = 7%nat ∧
  (∀ e, Error.of_c (Error.to_c e) = e) ∧
  (∀ c, Error.to_c (Error.of_c c) = c) ∧
  (∀ (handle : N) (slots : gmap N ErrorState),
     (getErrorMessage handle slots).1.1 = (getError handle slots).1 ∧
     (getErrorMessage handle slots).2 = (getError handle slots).2 ∧
     (getErrorMessage handle slots).1.2
     = Some (message (errorSlot handle slots)) ∧
     (oidnGetDeviceError handle false slots).1.2 = None).
Proof.
  split_and!.
  - intros []; apply (bool_decide_unpack _); by vm_compute.
  - apply (bool_decide_unpack _). by vm_compute.
  - done.
  - apply of_c_to_c.
  - apply to_c_of_c.
  - done.
Qed.

(** ** Launch failures *)

Lemma enqueue_failure {D S} `{Coords D} (status : cudaError_t)
    (numGroups groupSize : D) (kernel : Thread D → S → S)
    (dev : CUDADevice S) :
  status ≠ cudaSuccess →
  let launched := cudaLaunchKernel status numGroups groupSize kernel dev in
  failure_recorded status dev
    (checkError (cudaGetLastError launched).1 (cudaGetLastError launched).2).
Proof.
  intros Hfail launched. subst launched. unfold failure_recorded.
  destruct status; [done|..]; simpl; unfold recordError;
    (destruct (decide (code (errorState dev) = OIDN_ERROR_NONE)) as [He|He];
     simpl; split_and!; try done; try (intros _; split; [auto|done])).
Qed.

Lemma enqueue_success {D S} `{Coords D}
    (numGroups groupSize : D) (kernel : Thread D → S → S)
    (dev : CUDADevice S) :
  lastError dev = cudaSuccess →
  let launched := cudaLaunchKernel cudaSuccess numGroups groupSize kernel dev in
  errorState
    (checkError (cudaGetLastError launched).1 (cudaGetLastError launched).2)
  = errorState dev.
Proof. intros Hok launched. subst launched. simpl. by rewrite Hok. Qed.

(** Claim C6.  Each [runKernelAsync] overload checks the runtime's status
    right after its launch.  When the launch fails, no kernel thread runs, the
    call returns normally, and the failure sits in the device's error slot as
    an error of kind Unknown or OutOfMemory (the slot keeps an earlier error
    that was still pending), from where the error accessor yields it; when
    the launch is accepted and the runtime had no error pending, the slot is
    left as it was. *)
Theorem dispatch_failure_recorded :
  ∀ S (status : cudaError_t) (dev : CUDADevice S),
    status ≠ cudaSuccess →
    (∀ g (f : WorkItem Z → S → S),
       failure_recorded status dev (runKernelAsync1 status g f dev)) ∧
    (∀ g (f : WorkItem (Z * Z) → S → S),
       failure_recorded status dev (runKernelAsync2 status g f dev)) ∧
    (∀ g (f : WorkItem (Z * Z * Z) → S → S),
       failure_recorded status dev (runKernelAsync3 status g f dev)) ∧
    (∀ D (HD : Coords D) (n g : D) (f : WorkGroupItem D → S → S),
       failure_recorded status dev (runKernelAsyncGroup status n g f dev)) ∧
    (lastError dev = cudaSuccess →
     (∀ g (f : WorkItem Z → S → S),
        errorState (runKernelAsync1 cudaSuccess g f dev) = errorState dev) ∧
     (∀ g (f : WorkItem (Z * Z) → S → S),
        errorState (runKernelAsync2 cudaSuccess g f dev) = errorState dev) ∧
     (∀ g (f : WorkItem (Z * Z * Z) → S → S),
        errorState (runKernelAsync3 cudaSuccess g f dev) = errorState dev) ∧
     (∀ D (HD : Coords D) (n g : D) (f : WorkGroupItem D → S → S),
        errorState (runKernelAsyncGroup cudaSuccess n g f dev)
        = errorState dev)).
Proof.
  intros S status dev Hfail. split_and!.
  - intros g f. by apply (enqueue_failure status).
  - intros g f. by apply (enqueue_failure status).
  - intros g f. by apply (enqueue_failure status).
  - intros D HD n g f. by apply (enqueue_failure status).
  - intros Hok. split_and!; intros; by apply enqueue_success.
Qed.

Lemma dispatch_failure_recorded_witness :
  cudaErrorInvalidConfiguration ≠ cudaSuccess ∧
  failure_recorded cudaErrorInvalidConfiguration
    (mkCUDADevice [] cudaSuccess noError)
    (runKernelAsync1 cudaErrorInvalidConfiguration 0 record
       (mkCUDADevice [] cudaSuccess noError)).
Proof.
  assert (cudaErrorInvalidConfiguration ≠ cudaSuccess) as Hfail
    by discriminate.
  split; [exact Hfail|].
  destruct (dispatch_failure_recorded (list (WorkItem Z))
              cudaErrorInvalidConfiguration
              (mkCUDADevice [] cudaSuccess noError) Hfail) as (H1 & _).
  apply H1.
Defined.

(** ** Counting the wrappers that hold a handle *)

Local Abbreviation ind x h := (if decide (x = h) then 1%nat else 0%nat).
Local Abbreviation cnt h m :=
  (size (filter (λ kv : N * N, kv.2 = h) (m : gmap N N))).

Lemma cnt_empty (h : N) : cnt h ∅ = 0%nat.
Proof. by rewrite map_filter_empty, map_size_empty. Qed.

Lemma cnt_insert_None (h a x : N) (m : gmap N N) :
  m !! a = None → cnt h (<[a := x]> m) = (cnt h m + ind x h)%nat.
Proof.
  intros Ha. rewrite map_filter_insert. simpl. case_decide.
  - rewrite map_size_insert_None; [lia|].
    apply map_lookup_filter_None. by left.
  - rewrite delete_id by done. lia.
Qed.

Lemma cnt_delete_Some (h a y : N) (m : gmap N N) :
  m !! a = Some y → (cnt h (delete a m) + ind y h)%nat = cnt h m.
Proof.
  intros Ha. transitivity (cnt h (<[a := y]> (delete a m))).
  - by rewrite cnt_insert_None by apply lookup_delete_eq.
  - by rewrite insert_delete_eq, insert_id.
Qed.

Lemma cnt_insert_Some (h a x y : N) (m : gmap N N) :
  m !! a = Some y →
  (cnt h (<[a := x]> m) + ind y h)%nat = (cnt h m + ind x h)%nat.
Proof.
  intros Ha. rewrite <-(cnt_delete_Some h a y m Ha).
  rewrite <-(insert_delete_eq m).
  rewrite cnt_insert_None by apply lookup_delete_eq. lia.
Qed.

Lemma cnt_pos (h a : N) (m : gmap N N) :
  m !! a = Some h → (0 < cnt h m)%nat.
Proof.
  intros Ha. rewrite <-(cnt_delete_Some h a h m Ha).
  rewrite decide_True by done. lia.
Qed.

Lemma cnt_zero (h : N) (m : gmap N N) :
  cnt h m = 0%nat → ∀ a, m !! a ≠ Some h.
Proof. intros Hz a Ha. apply (cnt_pos h a m) in Ha. lia. Qed.

Lemma cnt_one (h a : N) (m : gmap N N) :
  m !! a = Some h →
  cnt h m = 1%nat ↔ ∀ b, b ≠ a → m !! b ≠ Some h.
Proof.
  intros Ha. pose proof (cnt_delete_Some h a h m Ha) as Hd.
  rewrite decide_True in Hd by done. split.
  - intros H1 b Hb Hbh.
    assert (delete a m !! b = Some h) as Hdb by by rewrite lookup_delete_ne.
    apply cnt_pos in Hdb. lia.
  - intros Hother.
    destruct (decide (cnt h (delete a m) = 0%nat)) as [Hz|Hnz]; [lia|].
    exfalso. apply Hnz. apply map_size_empty_iff, map_empty. intros b.
    apply map_lookup_filter_None. destruct (decide (b = a)) as [->|Hb].
    + left. apply lookup_delete_eq.
    + right. intros x Hx. rewrite lookup_delete_ne in Hx by done.
      simpl. intros ->. by apply (Hother b).
Qed.

(** ** The API entry points *)

Lemma refcount_Some (h : N) (σ : Heap) (n : nat) :
  refs σ !! h = Some n → refcount h σ = n.
Proof. unfold refcount. by intros ->. Qed.

Lemma refcount_pos (h : N) (σ : Heap) :
  (0 < refcount h σ)%nat → refs σ !! h = Some (refcount h σ).
Proof. unfold refcount. destruct (refs σ !! h); simpl; [done|lia]. Qed.

Lemma refcount_zero (h : N) (σ : Heap) :
  (∀ h, refs σ !! h ≠ Some 0%nat) →
  refcount h σ = 0%nat ↔ refs σ !! h = None.
Proof.
  intros Hnz. unfold refcount. specialize (Hnz h).
  destruct (refs σ !! h) as [[|n]|]; simpl; naive_solver.
Qed.

Lemma oidnRetain_spec (cls : RefClass) (h : N) (σ : Heap) :
  (0 < refcount h σ)%nat →
  (∀ h, refs σ !! h ≠ Some 0%nat) →
  ∃ σ', oidnRetain cls h σ = Some σ' ∧
        objs σ' = objs σ ∧
        calls σ' = calls σ ++ [Retain cls h] ∧
        (∀ h, refs σ' !! h ≠ Some 0%nat) ∧
        (∀ h', refcount h' σ' = (refcount h' σ + ind h h')%nat).
Proof.
  intros Hpos Hnz. apply refcount_pos in Hpos as Hh.
  unfold oidnRetain. rewrite Hh. simpl. eexists. split; [done|]. simpl.
  split_and!; [done|done|..].
  - intros h'. destruct (decide (h = h')) as [->|Hne].
    + by rewrite lookup_insert_eq.
    + rewrite lookup_insert_ne by done. apply Hnz.
  - intros h'. unfold refcount at 1. simpl. case_decide as Hd.
    + subst h'. rewrite lookup_insert_eq. simpl. lia.
    + rewrite lookup_insert_ne by done. unfold refcount. lia.
Qed.

Lemma oidnRelease_spec (cls : RefClass) (h : N) (σ : Heap) :
  (0 < refcount h σ)%nat →
  (∀ h, refs σ !! h ≠ Some 0%nat) →
  ∃ σ', oidnRelease cls h σ = Some σ' ∧
        objs σ' = objs σ ∧
        calls σ' = calls σ ++ [Release cls h] ∧
        (∀ h, refs σ' !! h ≠ Some 0%nat) ∧
        (∀ h', (refcount h' σ' + ind h h')%nat = refcount h' σ).
Proof.
  intros Hpos Hnz. apply refcount_pos in Hpos as Hh.
  unfold oidnRelease. rewrite Hh. simpl. eexists. split; [done|]. simpl.
  split_and!; [done|done|..].
  - intros h'. case_decide as Hle.
    + destruct (decide (h = h')) as [->|Hne].
      * by rewrite lookup_delete_eq.
      * rewrite lookup_delete_ne by done. apply Hnz.
    + destruct (decide (h = h')) as [->|Hne].
      * rewrite lookup_insert_eq. intros [= Hp]. lia.
      * rewrite lookup_insert_ne by done. apply Hnz.
  - intros h'. unfold refcount at 1. simpl. case_decide as Hle.
    + case_decide as Hd.
      * subst h'. rewrite lookup_delete_eq. simpl. lia.
      * rewrite lookup_delete_ne by done. unfold refcount. lia.
    + case_decide as Hd.
      * subst h'. rewrite lookup_insert_eq. simpl. lia.
      * rewrite lookup_insert_ne by done. unfold refcount. lia.
Qed.

(** ** The wrappers keep retains and releases balanced *)

Lemma held_live (σ : Heap) (a h : N) :
  balanced σ → objs σ !! a = Some h → h ≠ 0%N → (0 < refcount h σ)%nat.
Proof.
  intros [_ Hbal] Ha Hh. rewrite (Hbal h Hh). unfold owners.
  by apply (cnt_pos h a).
Qed.

Lemma balanced_empty : balanced (mkHeap ∅ ∅ []).
Proof.
  split.
  - intros h. simpl. by rewrite lookup_empty.
  - intros h _. unfold refcount, owners. simpl.
    by rewrite lookup_empty, cnt_empty.
Qed.

Section Ref_specs.
Variable cls : RefClass.

Lemma ctor_default_spec (this : N) (σ : Heap) :
  balanced σ → objs σ !! this = None →
  ∃ σ', ctor_default this σ = Some σ' ∧
        calls σ' = calls σ ∧
        objs σ' = <[this := 0%N]> (objs σ) ∧
        refs σ' = refs σ ∧
        balanced σ'.
Proof.
  intros [Hnz Hbal] Hthis. unfold ctor_default, ctor_handle.
  rewrite decide_True by done. eexists. split; [done|]. simpl.
  split_and!; [done..|]. split; [done|].
  intros h' Hh'. specialize (Hbal h' Hh'). unfold owners, refcount in *.
  simpl. rewrite cnt_insert_None by done.
  rewrite decide_False by congruence. lia.
Qed.

Lemma new_ref_spec (this h : N) (σ : Heap) :
  balanced σ → objs σ !! this = None → h ≠ 0%N → refs σ !! h = None →
  ∃ σ', new_ref this h σ = Some σ' ∧
        calls σ' = calls σ ∧
        objs σ' = <[this := h]> (objs σ) ∧
        balanced σ'.
Proof.
  intros [Hnz Hbal] Hthis Hh Hfresh. unfold new_ref, oidnNew, ctor_handle.
  rewrite decide_True by done. simpl. rewrite decide_True by done.
  eexists. split; [done|]. simpl. split_and!; [done..|]. split.
  - intros h'. simpl. destruct (decide (h = h')) as [->|Hne].
    + by rewrite lookup_insert_eq.
    + rewrite lookup_insert_ne by done. apply Hnz.
  - intros h' Hh'. specialize (Hbal h' Hh'). unfold owners, refcount in *.
    simpl. rewrite cnt_insert_None by done.
    destruct (decide (h = h')) as [->|Hne].
    + rewrite lookup_insert_eq. rewrite Hfresh in Hbal. simpl in *. lia.
    + rewrite lookup_insert_ne by done. lia.
Qed.

Lemma ctor_copy_spec (this other h : N) (σ : Heap) :
  balanced σ → objs σ !! other = Some h → objs σ !! this = None →
  ∃ σ', ctor_copy cls this other σ = Some σ' ∧
        calls σ'
        = calls σ ++ (if decide (h ≠ 0%N) then [Retain cls h] else []) ∧
        objs σ' = <[this := h]> (objs σ) ∧
        balanced σ'.
Proof.
  intros Hb Hother Hthis. pose proof Hb as [Hnz Hbal].
  unfold ctor_copy, ctor_handle. rewrite Hother. simpl.
  rewrite decide_True by done. simpl. case_decide as Hh.
  - destruct (oidnRetain_spec cls h (set_objs <[this := h]> σ))
      as (σ' & -> & Hobjs & Hcalls & Hnz' & Hrc).
    { by apply (held_live σ other). }
    { done. }
    exists σ'. split_and!; [done..|]. split; [done|].
    intros h' Hh'. rewrite Hrc. specialize (Hbal h' Hh').
    unfold owners, refcount in *. rewrite Hobjs. simpl.
    rewrite cnt_insert_None by done. lia.
  - eexists. split; [done|]. simpl. rewrite app_nil_r.
    split_and!; [done..|]. split; [done|].
    intros h' Hh'. specialize (Hbal h' Hh').
    unfold owners, refcount in *. simpl.
    rewrite cnt_insert_None by done.
    rewrite decide_False by congruence. lia.
Qed.

Lemma ctor_move_spec (this other h : N) (σ : Heap) :
  balanced σ → objs σ !! other = Some h → objs σ !! this = None →
  ∃ σ', ctor_move this other σ = Some σ' ∧
        calls σ' = calls σ ∧
        refs σ' = refs σ ∧
        objs σ' = <[other := 0%N]> (<[this := h]> (objs σ)) ∧
        balanced σ'.
Proof.
  intros [Hnz Hbal] Hother Hthis.
  unfold ctor_move, ctor_handle. rewrite Hother. simpl.
  rewrite decide_True by done. simpl.
  eexists. split; [done|]. simpl. split_and!; [done..|]. split; [done|].
  intros h' Hh'. specialize (Hbal h' Hh').
  unfold owners, refcount in *. simpl.
  assert (this ≠ other) as Hne by congruence.
  pose proof (cnt_insert_Some h' other 0%N h (<[this := h]> (objs σ))) as H1.
  rewrite lookup_insert_ne in H1 by done. specialize (H1 Hother).
  rewrite (cnt_insert_None h' this h (objs σ)) in H1 by done.
  rewrite (decide_False (P := 0%N = h')) in H1 by congruence. lia.
Qed.

Lemma dtor_spec (this h : N) (σ : Heap) :
  balanced σ → objs σ !! this = Some h →
  ∃ σ', dtor cls this σ = Some σ' ∧
        calls σ'
        = calls σ ++ (if decide (h ≠ 0%N) then [Release cls h] else []) ∧
        objs σ' = delete this (objs σ) ∧
        (h = 0%N → refs σ' = refs σ) ∧
        balanced σ'.
Proof.
  intros Hb Hthis. pose proof Hb as [Hnz Hbal].
  unfold dtor. rewrite Hthis. simpl. case_decide as Hh.
  - destruct (oidnRelease_spec cls h σ)
      as (σ' & -> & Hobjs & Hcalls & Hnz' & Hrc).
    { by apply (held_live σ this). }
    { done. }
    simpl. eexists. split; [done|]. simpl. rewrite Hobjs.
    split_and!; [done..|]. split; [done|].
    intros h' Hh'. specialize (Hbal h' Hh'). specialize (Hrc h').
    unfold owners, refcount in *. simpl. rewrite Hobjs.
    pose proof (cnt_delete_Some h' this h (objs σ) Hthis). lia.
  - eexists. split; [done|]. simpl. rewrite app_nil_r.
    split_and!; [done..|]. split; [done|].
    intros h' Hh'. specialize (Hbal h' Hh').
    unfold owners, refcount in *. simpl.
    pose proof (cnt_delete_Some h' this h (objs σ) Hthis) as H1.
    assert (h = 0%N) as -> by (destruct (decide (h = 0%N)); [done|tauto]).
    rewrite decide_False in H1 by congruence. lia.
Qed.
End Ref_specs.

Section Ref_assign.
Variable cls : RefClass.

Lemma retain_if_spec (h : N) (σ : Heap) :
  (h ≠ 0%N → (0 < refcount h σ)%nat) →
  (∀ h, refs σ !! h ≠ Some 0%nat) →
  ∃ σ', (if decide (h ≠ 0%N) then oidnRetain cls h σ else Some σ) = Some σ' ∧
        objs σ' = objs σ ∧
        calls σ'
        = calls σ ++ (if decide (h ≠ 0%N) then [Retain cls h] else []) ∧
        (∀ h, refs σ' !! h ≠ Some 0%nat) ∧
        (∀ h', h' ≠ 0%N →
           refcount h' σ' = (refcount h' σ + ind h h')%nat).
Proof.
  intros Hlive Hnz. case_decide as Hh.
  - destruct (oidnRetain_spec cls h σ (Hlive Hh) Hnz)
      as (σ' & -> & Hobjs & Hcalls & Hnz' & Hrc).
    exists σ'. split_and!; [done..|]. intros h' _. apply Hrc.
  - exists σ. rewrite app_nil_r. split_and!; [done..|].
    intros h' Hh'. rewrite decide_False by congruence. lia.
Qed.

Lemma release_if_spec (h : N) (σ : Heap) :
  (h ≠ 0%N → (0 < refcount h σ)%nat) →
  (∀ h, refs σ !! h ≠ Some 0%nat) →
  ∃ σ', (if decide (h ≠ 0%N) then oidnRelease cls h σ else Some σ) = Some σ' ∧
        objs σ' = objs σ ∧
        calls σ'
        = calls σ ++ (if decide (h ≠ 0%N) then [Release cls h] else []) ∧
        (∀ h, refs σ' !! h ≠ Some 0%nat) ∧
        (∀ h', h' ≠ 0%N →
           (refcount h' σ' + ind h h')%nat = refcount h' σ).
Proof.
  intros Hlive Hnz. case_decide as Hh.
  - destruct (oidnRelease_spec cls h σ (Hlive Hh) Hnz)
      as (σ' & -> & Hobjs & Hcalls & Hnz' & Hrc).
    exists σ'. split_and!; [done..|]. intros h' _. apply Hrc.
  - exists σ. rewrite app_nil_r. split_and!; [done..|].
    intros h' Hh'. rewrite decide_False by congruence. lia.
Qed.

Lemma assign_copy_spec (this other h oh : N) (σ : Heap) :
  balanced σ → objs σ !! this = Some h → objs σ !! other = Some oh →
  other ≠ this →
  ∃ σ', assign_copy cls this other σ = Some σ' ∧
        calls σ'
        = calls σ ++ (if decide (oh ≠ 0%N) then [Retain cls oh] else [])
                  ++ (if decide (h ≠ 0%N) then [Release cls h] else []) ∧
        objs σ' = <[this := oh]> (objs σ) ∧
        balanced σ'.
Proof.
  intros Hb Hthis Hother Hne. pose proof Hb as [Hnz Hbal].
  destruct (retain_if_spec oh σ)
    as (σ1 & E1 & Hobjs1 & Hcalls1 & Hnz1 & Hrc1); [|done|].
  { intros Hoh. by apply (held_live σ other). }
  destruct (release_if_spec h σ1)
    as (σ2 & E2 & Hobjs2 & Hcalls2 & Hnz2 & Hrc2); [|done|].
  { intros Hh. rewrite (Hrc1 h Hh).
    pose proof (held_live σ this h Hb Hthis Hh). lia. }
  unfold assign_copy. rewrite Hthis, Hother. simpl.
  rewrite decide_True by done. rewrite E1. simpl. rewrite E2. simpl.
  eexists. split; [done|]. simpl. split_and!.
  - by rewrite Hcalls2, Hcalls1, app_assoc.
  - by rewrite Hobjs2, Hobjs1.
  - split; [done|]. intros h' Hh'.
    specialize (Hbal h' Hh'). specialize (Hrc1 h' Hh').
    specialize (Hrc2 h' Hh'). unfold owners in *.
    change (refcount h' (set_objs <[this:=oh]> σ2)) with (refcount h' σ2).
    simpl. rewrite Hobjs2, Hobjs1.
    pose proof (cnt_insert_Some h' this oh h (objs σ) Hthis). lia.
Qed.

Lemma assign_copy_self (this h : N) (σ : Heap) :
  objs σ !! this = Some h → assign_copy cls this this σ = Some σ.
Proof.
  intros Hthis. unfold assign_copy. rewrite Hthis. simpl.
  by rewrite decide_False by tauto.
Qed.

Lemma assign_move_spec (this other h oh : N) (σ : Heap) :
  balanced σ → objs σ !! this = Some h → objs σ !! other = Some oh →
  ∃ σ', assign_move this other σ = Some σ' ∧
        calls σ' = calls σ ∧
        refs σ' = refs σ ∧
        objs σ' = <[other := h]> (<[this := oh]> (objs σ)) ∧
        balanced σ'.
Proof.
  intros [Hnz Hbal] Hthis Hother.
  unfold assign_move. rewrite Hthis, Hother. simpl.
  eexists. split; [done|]. simpl. split_and!; [done..|]. split; [done|].
  intros h' Hh'. specialize (Hbal h' Hh').
  unfold owners, refcount in *. simpl.
  pose proof (cnt_insert_Some h' this oh h (objs σ) Hthis) as H1.
  assert (<[this := oh]> (objs σ) !! other = Some oh) as Hother'.
  { destruct (decide (this = other)) as [->|Hne].
    - by rewrite lookup_insert_eq.
    - by rewrite lookup_insert_ne. }
  pose proof (cnt_insert_Some h' other h oh _ Hother') as H2. lia.
Qed.

(** One step of a well-formed program succeeds and keeps the balance. *)
Lemma step_balanced (op : RefOp) (σ : Heap) :
  balanced σ → op_ok op σ →
  ∃ σ', step cls op σ = Some σ' ∧ balanced σ'.
Proof.
  intros Hb Hok. destruct op as [this h|this|this other|this other|
                                 this other|this other|this]; simpl in *.
  - destruct Hok as (Hthis & Hh & Hfresh).
    destruct (new_ref_spec this h σ Hb Hthis Hh Hfresh)
      as (σ' & ? & _ & _ & ?). eauto.
  - destruct (ctor_default_spec this σ Hb Hok)
      as (σ' & ? & _ & _ & _ & ?). eauto.
  - destruct Hok as (Hthis & [h Hother]).
    destruct (ctor_copy_spec cls this other h σ Hb Hother Hthis)
      as (σ' & ? & _ & _ & ?). eauto.
  - destruct Hok as (Hthis & [h Hother]).
    destruct (ctor_move_spec this other h σ Hb Hother Hthis)
      as (σ' & ? & _ & _ & _ & ?). eauto.
  - destruct Hok as ([h Hthis] & [oh Hother]).
    destruct (decide (other = this)) as [->|Hne].
    + exists σ. split; [by apply (assign_copy_self this h)|done].
    + destruct (assign_copy_spec this other h oh σ Hb Hthis Hother Hne)
        as (σ' & ? & _ & _ & ?). eauto.
  - destruct Hok as ([h Hthis] & [oh Hother]).
    destruct (assign_move_spec this other h oh σ Hb Hthis Hother)
      as (σ' & ? & _ & _ & _ & ?). eauto.
  - destruct Hok as [h Hthis].
    destruct (dtor_spec cls this h σ Hb Hthis)
      as (σ' & ? & _ & _ & _ & ?). eauto.
Qed.

(** A step that succeeds was well-formed. *)
Lemma step_Some_ok (op : RefOp) (σ σ' : Heap) :
  step cls op σ = Some σ' → op_ok op σ.
Proof.
  destruct op as [this h|this|this other|this other|
                  this other|this other|this]; simpl.
  - unfold new_ref, oidnNew, ctor_handle.
    destruct (decide (h ≠ 0%N ∧ refs σ !! h = None)) as [[Hh Hfresh]|];
      [simpl|done].
    destruct (decide (objs σ !! this = None)); [done|discriminate].
  - unfold ctor_default, ctor_handle. by case_decide.
  - unfold ctor_copy, ctor_handle.
    destruct (objs σ !! other) as [h|]; [simpl|done].
    destruct (decide (objs σ !! this = None)); [eauto|discriminate].
  - unfold ctor_move, ctor_handle.
    destruct (objs σ !! other) as [h|]; [simpl|done].
    destruct (decide (objs σ !! this = None)); [eauto|discriminate].
  - unfold assign_copy.
    destruct (objs σ !! this) as [h|]; [simpl|done].
    destruct (objs σ !! other) as [oh|]; [eauto|done].
  - unfold assign_move.
    destruct (objs σ !! this) as [h|]; [simpl|done].
    destruct (objs σ !! other) as [oh|]; [eauto|done].
  - unfold dtor. destruct (objs σ !! this) as [h|]; [eauto|done].
Qed.

Lemma run_balanced (ops : list RefOp) (σ σ' : Heap) :
  balanced σ → run cls ops σ = Some σ' → balanced σ'.
Proof.
  revert σ. induction ops as [|op ops IH]; intros σ Hb Hrun; simpl in *.
  - by injection Hrun as <-.
  - destruct (step cls op σ) as [σ1|] eqn:Hstep; [|done]. simpl in Hrun.
    apply (IH σ1); [|done].
    destruct (step_balanced op σ Hb (step_Some_ok op σ σ1 Hstep))
      as (σ1' & Hstep' & Hb'). congruence.
Qed.
End Ref_assign.

(** Claim C4, as the code has it.  For each wrapper class and every balanced
    heap: copy construction from a wrapper with a non-null handle makes
    exactly one retain call, on that handle; copy assignment from a different
    wrapper makes one retain call on the new handle followed by one release
    call on the replaced one (both non-null); assigning a wrapper to itself
    makes no call and changes nothing; destruction makes exactly one release
    call, after which the API object is gone exactly when no other wrapper
    held its handle.  Every such step keeps the heap balanced, so after any
    program of wrapper operations each API object's count is the number of
    wrappers holding it and every handle held by a wrapper is live; a
    well-formed operation never fails. *)
Theorem wrappers_balanced :
  ∀ (cls : RefClass) (σ : Heap),
    balanced σ →
    (∀ this other h,
       objs σ !! other = Some h → h ≠ 0%N → objs σ !! this = None →
       ∃ σ', ctor_copy cls this other σ = Some σ' ∧
             calls σ' = calls σ ++ [Retain cls h] ∧
             objs σ' = <[this := h]> (objs σ) ∧
             balanced σ') ∧
    (∀ this other h oh,
       other ≠ this →
       objs σ !! this = Some h → objs σ !! other = Some oh →
       h ≠ 0%N → oh ≠ 0%N →
       ∃ σ', assign_copy cls this other σ = Some σ' ∧
             calls σ' = calls σ ++ [Retain cls oh; Release cls h] ∧
             objs σ' = <[this := oh]> (objs σ) ∧
             balanced σ') ∧
    (∀ this h,
       objs σ !! this = Some h → assign_copy cls this this σ = Some σ) ∧
    (∀ this h,
       objs σ !! this = Some h → h ≠ 0%N →
       ∃ σ', dtor cls this σ = Some σ' ∧
             calls σ' = calls σ ++ [Release cls h] ∧
             objs σ' = delete this (objs σ) ∧
             balanced σ' ∧
             (refs σ' !! h = None ↔
              ∀ b, b ≠ this → objs σ !! b ≠ Some h)) ∧
    (∀ ops σ',
       run cls ops σ = Some σ' →
       balanced σ' ∧
       (∀ h, h ≠ 0%N → refcount h σ' = owners h σ') ∧
       (∀ a h, objs σ' !! a = Some h → h ≠ 0%N → is_Some (refs σ' !! h))) ∧
    (∀ op, op_ok op σ → is_Some (step cls op σ)).
Proof.
  intros cls σ Hb. split_and!.
  - intros this other h Hother Hh Hthis.
    destruct (ctor_copy_spec cls this other h σ Hb Hother Hthis)
      as (σ' & Hrun & Hcalls & Hobjs & Hb').
    rewrite decide_True in Hcalls by done. eauto.
  - intros this other h oh Hne Hthis Hother Hh Hoh.
    destruct (assign_copy_spec cls this other h oh σ Hb Hthis Hother Hne)
      as (σ' & Hrun & Hcalls & Hobjs & Hb').
    rewrite !decide_True in Hcalls by done. eauto.
  - intros this h. apply assign_copy_self.
  - intros this h Hthis Hh.
    destruct (dtor_spec cls this h σ Hb Hthis)
      as (σ' & Hrun & Hcalls & Hobjs & _ & Hb').
    rewrite decide_True in Hcalls by done.
    exists σ'. split_and!; [done..|].
    destruct Hb' as [Hnz' Hbal']. rewrite <-(refcount_zero h σ' Hnz').
    rewrite (Hbal' h Hh). unfold owners. rewrite Hobjs.
    rewrite <-(cnt_one h this (objs σ) Hthis).
    pose proof (cnt_delete_Some h this h (objs σ) Hthis) as Hd.
    rewrite decide_True in Hd by done. lia.
  - intros ops σ' Hrun.
    pose proof (run_balanced cls ops σ σ' Hb Hrun) as Hb'.
    split; [done|]. split; [apply Hb'|].
    intros a h Ha Hh. pose proof (held_live σ' a h Hb' Ha Hh) as Hlive.
    apply refcount_pos in Hlive. eauto.
  - intros op Hok.
    destruct (step_balanced cls op σ Hb Hok) as (σ' & -> & _). eauto.
Qed.

Lemma wrappers_balanced_witness :
  let σ := mkHeap (<[2%N := 8%N]> (<[1%N := 7%N]> ∅))
             (<[8%N := 1%nat]> (<[7%N := 1%nat]> ∅)) [] in
  (balanced σ ∧
   objs σ !! 1%N = Some 7%N ∧ objs σ !! 2%N = Some 8%N ∧
   objs σ !! 3%N = None ∧ 7%N ≠ 0%N ∧ 8%N ≠ 0%N ∧ 1%N ≠ 2%N) ∧
  (∃ σ', ctor_copy BufferRef 3%N 1%N σ = Some σ' ∧
         calls σ' = [Retain BufferRef 7%N] ∧
         objs σ' !! 3%N = Some 7%N ∧
         balanced σ') ∧
  (∃ σ', assign_copy BufferRef 2%N 1%N σ = Some σ' ∧
         calls σ' = [Retain BufferRef 7%N; Release BufferRef 8%N] ∧
         objs σ' !! 2%N = Some 7%N ∧
         balanced σ') ∧
  assign_copy BufferRef 1%N 1%N σ = Some σ ∧
  (∃ σ', dtor BufferRef 1%N σ = Some σ' ∧
         calls σ' = [Release BufferRef 7%N] ∧
         objs σ' !! 1%N = None ∧
         refs σ' !! 7%N = None ∧
         balanced σ') ∧
  (∃ σ', run BufferRef [CopyCtor 3%N 1%N; Dtor 1%N; Dtor 2%N] σ = Some σ' ∧
         refs σ' !! 7%N = Some 1%nat ∧ refs σ' !! 8%N = None ∧
         balanced σ') ∧
  is_Some (step BufferRef (CopyAssign 2%N 1%N) σ).
Proof.
  intros σ.
  assert (balanced σ) as Hb.
  { apply (run_balanced BufferRef [New 1%N 7%N; New 2%N 8%N]
             (mkHeap ∅ ∅ [])); [exact balanced_empty|reflexivity]. }
  assert (objs σ !! 1%N = Some 7%N) as H1 by reflexivity.
  assert (objs σ !! 2%N = Some 8%N) as H2 by reflexivity.
  assert (objs σ !! 3%N = None) as H3 by reflexivity.
  assert (7%N ≠ 0%N) as H7 by done.
  assert (8%N ≠ 0%N) as H8 by done.
  assert (1%N ≠ 2%N) as H12 by done.
  split; [by split_and!|].
  destruct (wrappers_balanced BufferRef σ Hb)
    as (Hcopy & Hassign & Hself & Hdtor & Hrun & Hprogress).
  split_and!.
  - destruct (Hcopy 3%N 1%N 7%N H1 H7 H3) as (σ' & E & Hc & Ho & Hb').
    exists σ'. split_and!; [exact E|exact Hc| |exact Hb'].
    rewrite Ho. apply lookup_insert_eq.
  - destruct (Hassign 2%N 1%N 8%N 7%N H12 H2 H1 H8 H7)
      as (σ' & E & Hc & Ho & Hb').
    exists σ'. split_and!; [exact E|exact Hc| |exact Hb'].
    rewrite Ho. apply lookup_insert_eq.
  - exact (Hself 1%N 7%N H1).
  - destruct (Hdtor 1%N 7%N H1 H7) as (σ' & E & Hc & Ho & Hb' & Hgone).
    exists σ'. split_and!; [exact E|exact Hc| | |exact Hb'].
    + rewrite Ho. apply lookup_delete_eq.
    + apply Hgone. intros b Hb1. simpl.
      rewrite lookup_insert. case_decide; [done|].
      rewrite lookup_insert_ne by done. by rewrite lookup_empty.
  - assert (run BufferRef [CopyCtor 3%N 1%N; Dtor 1%N; Dtor 2%N] σ
            = Some (mkHeap (<[3%N := 7%N]> ∅) (<[7%N := 1%nat]> ∅)
                      [Retain BufferRef 7%N; Release BufferRef 7%N;
                       Release BufferRef 8%N])) as E by reflexivity.
    eexists. split; [exact E|].
    destruct (Hrun _ _ E) as (Hb' & _ & _).
    split_and!; [reflexivity|reflexivity|exact Hb'].
  - apply Hprogress. simpl. split; eauto.
Defined.

(** Claim C4 as stated fails: when a wrapper is assigned to itself,
    [&other != this] is false and the body with the retain and the release
    is skipped, so copy assignment need not make a retain call. *)
Lemma assign_copy_self_no_calls :
  ¬ (∀ (cls : RefClass) (σ σ' : Heap) (this other h oh : N),
       balanced σ →
       objs σ !! this = Some h → objs σ !! other = Some oh →
       h ≠ 0%N → oh ≠ 0%N →
       assign_copy cls this other σ = Some σ' →
       calls σ' = calls σ ++ [Retain cls oh; Release cls h]).
Proof.
  intros Hclaim.
  pose (σ := mkHeap (<[1%N := 7%N]> ∅) (<[7%N := 1%nat]> ∅) []).
  assert (balanced σ) as Hb.
  { apply (run_balanced BufferRef [New 1%N 7%N] (mkHeap ∅ ∅ []));
      [exact balanced_empty|].
    simpl. unfold new_ref, oidnNew, ctor_handle. simpl.
    rewrite decide_True by (by rewrite lookup_empty). simpl.
    by rewrite decide_True by (by rewrite lookup_empty). }
  assert (objs σ !! 1%N = Some 7%N) as Hthis by apply lookup_insert_eq.
  assert (7%N ≠ 0%N) as Hh by done.
  pose proof (assign_copy_self BufferRef 1%N 7%N σ Hthis) as Hself.
  specialize (Hclaim BufferRef σ σ 1%N 1%N 7%N 7%N Hb Hthis Hthis Hh Hh Hself).
  simpl in Hclaim. discriminate Hclaim.
Qed.

(** Claim C10.  Move construction of a wrapper of any class copies the
    handle into the new wrapper and nulls the source; it calls neither retain
    nor release and leaves every reference count as it was.  Destroying the
    moved-from wrapper afterwards calls nothing either, so the API object
    sees no release for it. *)
Theorem ctor_move_transfers :
  ∀ (cls : RefClass) (σ : Heap) (this other h : N),
    objs σ !! other = Some h → objs σ !! this = None →
    ∃ σ',
      ctor_move this other σ = Some σ' ∧
      calls σ' = calls σ ∧
      refs σ' = refs σ ∧
      objs σ' !! this = Some h ∧
      objs σ' !! other = Some 0%N ∧
      (∀ a, a ≠ this → a ≠ other → objs σ' !! a = objs σ !! a) ∧
      (balanced σ → balanced σ') ∧
      ∃ σ'',
        dtor cls other σ' = Some σ'' ∧
        calls σ'' = calls σ ∧
        refs σ'' = refs σ ∧
        objs σ'' !! this = Some h ∧
        objs σ'' !! other = None.
Proof.
  intros cls σ this other h Hother Hthis.
  assert (this ≠ other) as Hne by congruence.
  unfold ctor_move, ctor_handle. rewrite Hother. simpl.
  rewrite decide_True by done. simpl.
  eexists. split; [done|]. simpl. split_and!; [done|done|..].
  - rewrite lookup_insert_ne by done. apply lookup_insert_eq.
  - apply lookup_insert_eq.
  - intros a Ha1 Ha2. by rewrite !lookup_insert_ne.
  - intros Hb.
    destruct (ctor_move_spec this other h σ Hb Hother Hthis)
      as (σ' & Hrun & _ & _ & _ & Hb').
    unfold ctor_move, ctor_handle in Hrun. rewrite Hother in Hrun.
    simpl in Hrun. rewrite decide_True in Hrun by done. simpl in Hrun.
    by injection Hrun as <-.
  - unfold dtor. simpl. rewrite lookup_insert_eq. simpl.
    eexists. split; [done|]. simpl. split_and!; [done|done|..].
    + rewrite lookup_delete_ne by done.
      rewrite lookup_insert_ne by done. apply lookup_insert_eq.
    + apply lookup_delete_eq.
Qed.

Lemma ctor_move_transfers_witness :
  let σ := mkHeap (<[1%N := 7%N]> ∅) (<[7%N := 1%nat]> ∅) [] in
  (objs σ !! 1%N = Some 7%N ∧ objs σ !! 2%N = None) ∧
  ∃ σ', ctor_move 2%N 1%N σ = Some σ' ∧
        calls σ' = [] ∧ refs σ' = refs σ ∧
        objs σ' !! 2%N = Some 7%N ∧ objs σ' !! 1%N = Some 0%N.
Proof.
  intros σ.
  assert (objs σ !! 1%N = Some 7%N) as H1 by apply lookup_insert_eq.
  assert (objs σ !! 2%N = None) as H2.
  { simpl. rewrite lookup_insert_ne by done. apply lookup_empty. }
  split; [by split|].
  destruct (ctor_move_transfers DeviceRef σ 2%N 1%N 7%N H1 H2)
    as (σ' & Hrun & Hcalls & Hrefs & Hthis & Hother & _).
  exists σ'. split_and!; done.
Defined.

(** ** The Op catalog *)

Lemma elem_of_CUDADevice_factories (f : Ops.Factory) :
  f ∈ Ops.CUDADevice_factories →
  Ops.factory_of (Ops.result f) = Some f.
Proof.
  unfold Ops.CUDADevice_factories. rewrite !elem_of_cons, elem_of_nil.
  intros H. repeat (destruct H as [->|H]; [reflexivity|]). done.
Qed.

Lemma factory_of_Some (k : Ops.OpKind) (f : Ops.Factory) :
  Ops.factory_of k = Some f →
  f ∈ Ops.CUDADevice_factories ∧ Ops.result f = k.
Proof.
  intros Hf.
  destruct k; vm_compute in Hf; injection Hf as <-; (split; [|reflexivity]);
    apply (bool_decide_unpack _); by vm_compute.
Qed.

(** Claim C5, as the code has it.  Every Op variant of the catalog has a
    factory method on the device.  The factory takes a descriptor by
    reference-to-const for every variant but ImageCopy, whose factory has no
    parameter.  Every variant offers both capabilities, finalize and submit;
    the two concrete classes at hand override only members of that set and
    support both. *)
Theorem op_catalog :
  (∀ k : Ops.OpKind, k ∈ Ops.catalog) ∧
  NoDup Ops.catalog ∧
  (∀ k, ∃ f, Ops.factory_of k = Some f ∧
             f ∈ Ops.CUDADevice_factories ∧
             Ops.result f = k ∧
             (Ops.param f = None ↔ k = Ops.ImageCopy)) ∧
  (∀ f, f ∈ Ops.CUDADevice_factories →
        (is_Some (Ops.param f) ↔ Ops.result f ≠ Ops.ImageCopy)) ∧
  (∀ k (m : Ops.Method), m ∈ Ops.capabilities k) ∧
  (∀ c, c ∈ [Ops.CPUInputProcess; Ops.BNNSPool] →
        (∀ m, m ∈ Ops.overrides c → m ∈ Ops.capabilities (Ops.base c)) ∧
        (∀ m, Ops.supports c m = true) ∧
        is_Some (Ops.ctor_desc c)).
Proof.
  split_and!.
  - intros []; apply (bool_decide_unpack _); by vm_compute.
  - apply (bool_decide_unpack _). by vm_compute.
  - intros k. destruct (Ops.factory_of k) as [f|] eqn:Hf.
    + exists f. destruct (factory_of_Some k f Hf) as [Hin Hres].
      split_and!; [done..|].
      destruct k; vm_compute in Hf; injection Hf as <-; simpl;
        split; intros; congruence.
    + exfalso. destruct k; vm_compute in Hf; discriminate.
  - intros f Hf. unfold Ops.CUDADevice_factories in Hf.
    rewrite !elem_of_cons, elem_of_nil in Hf.
    repeat (destruct Hf as [->|Hf];
            [simpl; split; [intros _; discriminate|intros _; eauto]|]).
    destruct Hf as [->|[]]. simpl. split; [intros [? [=]]|congruence].
  - intros k []; unfold Ops.capabilities; set_solver.
  - intros c Hc. rewrite !elem_of_cons, elem_of_nil in Hc.
    destruct Hc as [->|[->|[]]]; (split_and!;
      [intros [] _; unfold Ops.capabilities; set_solver
      |intros []; reflexivity
      |simpl; eauto]).
Qed.

(** Claim C5 as stated fails: [newImageCopy()] takes no descriptor, so not
    every variant is constructed from one. *)
Lemma newImageCopy_no_descriptor :
  ¬ (∀ k : Ops.OpKind,
       ∃ f d, f ∈ Ops.CUDADevice_factories ∧
              Ops.result f = k ∧ Ops.param f = Some d).
Proof.
  intros Hclaim. destruct (Hclaim Ops.ImageCopy) as (f & d & Hf & Hres & Hd).
  apply elem_of_CUDADevice_factories in Hf. rewrite Hres in Hf.
  vm_compute in Hf. injection Hf as <-. discriminate Hd.
Qed.

(* ===================================================================== *)
(** * Part III: further properties of the embedded code                   *)
(* ===================================================================== *)

(** ** The basic kernels under an arbitrary launch configuration *)

Lemma split_index_iff (n g c : Z) :
  0 ≤ n → 0 ≤ g →
  (0 ≤ c < n * g) ↔ ∃ b t, (0 ≤ b < n) ∧ (0 ≤ t < g) ∧ c = b * g + t.
Proof.
  intros Hn Hg. split.
  - intros Hc. assert (0 < g) as Hg' by nia.
    exists (c `div` g), (c `mod` g). split; [|split].
    + split; [apply Z.div_pos; lia|].
      apply Z.div_lt_upper_bound; lia.
    + apply Z.mod_pos_bound; lia.
    + pose proof (Z.div_mod c g). lia.
  - intros (b & t & Hb & Ht & ->). nia.
Qed.

(** The coordinates a basic kernel passes to its body in one dimension are,
    up to order, those below both the extent and the size of the grid: each
    of them once, for every launch configuration. *)
Theorem basicCUDAKernel1_visits :
  ∀ globalSize numGroups groupSize : Z,
    0 ≤ numGroups → 0 ≤ groupSize →
    getId <$> launch numGroups groupSize
                (basicCUDAKernel1 globalSize record) []
    ≡ₚ coords (Z.min globalSize (numGroups * groupSize)).
Proof.
  intros e n g Hn Hg. rewrite basicCUDAKernel1_invoked.
  apply NoDup_Permutation.
  - apply NoDup_visited; [apply NoDup_grid; apply NoDup_coords1|].
    intros [b t bd gd] [b' t' bd' gd'] Hth Hth'. grid_bounds. intros Heq.
    assert (b = b' ∧ t = t') as [-> ->]
      by (apply (split_index_unique g); lia).
    done.
  - apply NoDup_coords1.
  - intros c. rewrite elem_of_visited, elem_of_coords1. unfold in_range1.
    split.
    + intros ([b t bd gd] & Hth & Hok & <-).
      apply bool_decide_unpack in Hok. grid_bounds.
      assert (0 ≤ b * g + t < n * g) by (apply split_index_iff; eauto).
      lia.
    + intros Hc.
      destruct (proj1 (split_index_iff n g c Hn Hg))
        as (b & t & Hb & Ht & ->); [lia|].
      exists (mkThread b t g n). split; [|split; [|reflexivity]].
      * apply elem_of_grid. simpl. by rewrite !elem_of_coords1.
      * apply bool_decide_pack. simpl. lia.
Qed.

Lemma basicCUDAKernel1_visits_witness :
  (0 ≤ 2 ∧ 0 ≤ 4) ∧
  getId <$> launch 2 4 (basicCUDAKernel1 10 record) [] ≡ₚ coords (Z.min 10 (2 * 4)).
Proof.
  assert (0 ≤ 2) as H1 by lia. assert (0 ≤ 4) as H2 by lia.
  split; [by split|]. exact (basicCUDAKernel1_visits 10 2 4 H1 H2).
Defined.

(** The same in two dimensions: the visited coordinates are, up to order,
    those of the box bounded per dimension by the extent and by the grid. *)
Theorem basicCUDAKernel2_visits :
  ∀ globalSize numGroups groupSize : Z * Z,
    0 ≤ numGroups.1 ∧ 0 ≤ numGroups.2 →
    0 ≤ groupSize.1 ∧ 0 ≤ groupSize.2 →
    getId <$> launch numGroups groupSize
                (basicCUDAKernel2 globalSize record) []
    ≡ₚ coords (Z.min globalSize.1 (numGroups.1 * groupSize.1),
               Z.min globalSize.2 (numGroups.2 * groupSize.2)).
Proof.
  intros [e0 e1] [n0 n1] [g0 g1]. simpl. intros [Hn0 Hn1] [Hg0 Hg1].
  rewrite basicCUDAKernel2_invoked. apply NoDup_Permutation.
  - apply NoDup_visited; [apply NoDup_grid; apply NoDup_coords2|].
    intros [[b0 b1] [t0 t1] bd gd] [[b0' b1'] [t0' t1'] bd' gd'] Hth Hth'.
    grid_bounds. intros [= Heq0 Heq1].
    assert (b0 = b0' ∧ t0 = t0') as [-> ->]
      by (apply (split_index_unique g0); lia).
    assert (b1 = b1' ∧ t1 = t1') as [-> ->]
      by (apply (split_index_unique g1); lia).
    done.
  - apply NoDup_coords2.
  - intros [c0 c1]. rewrite elem_of_visited, elem_of_coords2.
    unfold in_range2. simpl. split.
    + intros ([[b0 b1] [t0 t1] bd gd] & Hth & Hok & Hid).
      apply andb_prop_elim in Hok as [Hok0 Hok1].
      apply bool_decide_unpack in Hok0, Hok1.
      grid_bounds. injection Hid as <- <-.
      assert (0 ≤ b0 * g0 + t0 < n0 * g0)
        by (apply split_index_iff; [lia..|exists b0, t0; lia]).
      assert (0 ≤ b1 * g1 + t1 < n1 * g1)
        by (apply split_index_iff; [lia..|exists b1, t1; lia]).
      lia.
    + intros [Hc0 Hc1].
      destruct (proj1 (split_index_iff n0 g0 c0 Hn0 Hg0))
        as (b0 & t0 & Hb0 & Ht0 & ->); [lia|].
      destruct (proj1 (split_index_iff n1 g1 c1 Hn1 Hg1))
        as (b1 & t1 & Hb1 & Ht1 & ->); [lia|].
      exists (mkThread (b0, b1) (t0, t1) (g0, g1) (n0, n1)).
      split; [|split; [|reflexivity]].
      * apply elem_of_grid. simpl. rewrite !elem_of_coords2.
        unfold in_range2. simpl. done.
      * apply andb_prop_intro. split; apply bool_decide_pack; simpl; lia.
Qed.

Lemma basicCUDAKernel2_visits_witness :
  ((0 ≤ 2 ∧ 0 ≤ 1) ∧ (0 ≤ 4 ∧ 0 ≤ 8)) ∧
  getId <$> launch (2, 1) (4, 8) (basicCUDAKernel2 (5, 20) record) []
  ≡ₚ coords (Z.min 5 (2 * 4), Z.min 20 (1 * 8)).
Proof.
  assert (0 ≤ 2 ∧ 0 ≤ 1) as H1 by lia. assert (0 ≤ 4 ∧ 0 ≤ 8) as H2 by lia.
  split; [by split|]. exact (basicCUDAKernel2_visits (5, 20) (2, 1) (4, 8) H1 H2).
Defined.

(** And in three dimensions. *)
Theorem basicCUDAKernel3_visits :
  ∀ globalSize numGroups groupSize : Z * Z * Z,
    0 ≤ numGroups.1.1 ∧ 0 ≤ numGroups.1.2 ∧ 0 ≤ numGroups.2 →
    0 ≤ groupSize.1.1 ∧ 0 ≤ groupSize.1.2 ∧ 0 ≤ groupSize.2 →
    getId <$> launch numGroups groupSize
                (basicCUDAKernel3 globalSize record) []
    ≡ₚ coords (Z.min globalSize.1.1 (numGroups.1.1 * groupSize.1.1),
               Z.min globalSize.1.2 (numGroups.1.2 * groupSize.1.2),
               Z.min globalSize.2 (numGroups.2 * groupSize.2)).
Proof.
  intros [[e0 e1] e2] [[n0 n1] n2] [[g0 g1] g2]. simpl.
  intros (Hn0 & Hn1 & Hn2) (Hg0 & Hg1 & Hg2).
  rewrite basicCUDAKernel3_invoked. apply NoDup_Permutation.
  - apply NoDup_visited; [apply NoDup_grid; apply NoDup_coords3|].
    intros [[[b0 b1] b2] [[t0 t1] t2] bd gd]
           [[[b0' b1'] b2'] [[t0' t1'] t2'] bd' gd'] Hth Hth'.
    grid_bounds. intros [= Heq0 Heq1 Heq2].
    assert (b0 = b0' ∧ t0 = t0') as [-> ->]
      by (apply (split_index_unique g0); lia).
    assert (b1 = b1' ∧ t1 = t1') as [-> ->]
      by (apply (split_index_unique g1); lia).
    assert (b2 = b2' ∧ t2 = t2') as [-> ->]
      by (apply (split_index_unique g2); lia).
    done.
  - apply NoDup_coords3.
  - intros [[c0 c1] c2]. rewrite elem_of_visited, elem_of_coords3.
    unfold in_range3. simpl. split.
    + intros ([[[b0 b1] b2] [[t0 t1] t2] bd gd] & Hth & Hok & Hid).
      apply andb_prop_elim in Hok as [Hok01 Hok2].
      apply andb_prop_elim in Hok01 as [Hok0 Hok1].
      apply bool_decide_unpack in Hok0, Hok1, Hok2.
      grid_bounds. injection Hid as <- <- <-.
      assert (0 ≤ b0 * g0 + t0 < n0 * g0)
        by (apply split_index_iff; [lia..|exists b0, t0; lia]).
      assert (0 ≤ b1 * g1 + t1 < n1 * g1)
        by (apply split_index_iff; [lia..|exists b1, t1; lia]).
      assert (0 ≤ b2 * g2 + t2 < n2 * g2)
        by (apply split_index_iff; [lia..|exists b2, t2; lia]).
      lia.
    + intros (Hc0 & Hc1 & Hc2).
      destruct (proj1 (split_index_iff n0 g0 c0 Hn0 Hg0))
        as (b0 & t0 & Hb0 & Ht0 & ->); [lia|].
      destruct (proj1 (split_index_iff n1 g1 c1 Hn1 Hg1))
        as (b1 & t1 & Hb1 & Ht1 & ->); [lia|].
      destruct (proj1 (split_index_iff n2 g2 c2 Hn2 Hg2))
        as (b2 & t2 & Hb2 & Ht2 & ->); [lia|].
      exists (mkThread (b0, b1, b2) (t0, t1, t2) (g0, g1, g2) (n0, n1, n2)).
      split; [|split; [|reflexivity]].
      * apply elem_of_grid. simpl. rewrite !elem_of_coords3.
        unfold in_range3. simpl. done.
      * repeat (apply andb_prop_intro; split);
          apply bool_decide_pack; simpl; lia.
Qed.

Lemma basicCUDAKernel3_visits_witness :
  ((0 ≤ 2 ∧ 0 ≤ 1 ∧ 0 ≤ 3) ∧ (0 ≤ 1 ∧ 0 ≤ 4 ∧ 0 ≤ 2)) ∧
  getId <$> launch (2, 1, 3) (1, 4, 2) (basicCUDAKernel3 (2, 3, 7) record) []
  ≡ₚ coords (Z.min 2 (2 * 1), Z.min 3 (1 * 4), Z.min 7 (3 * 2)).
Proof.
  assert (0 ≤ 2 ∧ 0 ≤ 1 ∧ 0 ≤ 3) as H1 by lia.
  assert (0 ≤ 1 ∧ 0 ≤ 4 ∧ 0 ≤ 2) as H2 by lia.
  split; [by split|].
  exact (basicCUDAKernel3_visits (2, 3, 7) (2, 1, 3) (1, 4, 2) H1 H2).
Defined.

(** ** Empty extents *)

Lemma filter_fmap_nil {T A} (item : T → A) (ok : A → bool) (ths : list T) :
  (∀ th, th ∈ ths → ok (item th) = false) →
  filter (λ it, ok it) (item <$> ths) = [].
Proof.
  induction ths as [|th ths IH]; intros Hno; [done|].
  rewrite fmap_cons, filter_cons.
  rewrite (Hno th) by apply list_elem_of_here. simpl.
  apply IH. intros th' Hth'. apply Hno. by apply list_elem_of_further.
Qed.

(** When the extent is zero or negative in some dimension, a basic kernel
    never reaches its body: whatever the launch configuration and the body,
    the launch leaves the state as it was, and so does [runKernelAsync]
    with the memory, whether the launch is accepted or not. *)
Theorem basicCUDAKernel_empty_extent :
  (∀ (globalSize numGroups groupSize : Z) S
     (f : WorkItem Z → S → S) (st : S),
     globalSize ≤ 0 →
     launch numGroups groupSize (basicCUDAKernel1 globalSize f) st = st) ∧
  (∀ (globalSize numGroups groupSize : Z * Z) S
     (f : WorkItem (Z * Z) → S → S) (st : S),
     globalSize.1 ≤ 0 ∨ globalSize.2 ≤ 0 →
     launch numGroups groupSize (basicCUDAKernel2 globalSize f) st = st) ∧
  (∀ (globalSize numGroups groupSize : Z * Z * Z) S
     (f : WorkItem (Z * Z * Z) → S → S) (st : S),
     globalSize.1.1 ≤ 0 ∨ globalSize.1.2 ≤ 0 ∨ globalSize.2 ≤ 0 →
     launch numGroups groupSize (basicCUDAKernel3 globalSize f) st = st) ∧
  (∀ (globalSize : Z) S status (f : WorkItem Z → S → S) dev,
     globalSize ≤ 0 →
     memory (runKernelAsync1 status globalSize f dev) = memory dev) ∧
  (∀ (globalSize : Z * Z) S status (f : WorkItem (Z * Z) → S → S) dev,
     globalSize.1 ≤ 0 ∨ globalSize.2 ≤ 0 →
     memory (runKernelAsync2 status globalSize f dev) = memory dev) ∧
  (∀ (globalSize : Z * Z * Z) S status
     (f : WorkItem (Z * Z * Z) → S → S) dev,
     globalSize.1.1 ≤ 0 ∨ globalSize.1.2 ≤ 0 ∨ globalSize.2 ≤ 0 →
     memory (runKernelAsync3 status globalSize f dev) = memory dev).
Proof.
  assert (∀ (e n g : Z) S (f : WorkItem Z → S → S) (st : S),
            e ≤ 0 → launch n g (basicCUDAKernel1 e f) st = st) as L1.
  { intros e n g S f st He.
    rewrite basicCUDAKernel1_body, basicCUDAKernel1_invoked.
    rewrite filter_fmap_nil; [done|].
    intros [b t bd gd] Hth. grid_bounds.
    apply bool_decide_eq_false_2. simpl. nia. }
  assert (∀ (e n g : Z * Z) S (f : WorkItem (Z * Z) → S → S) (st : S),
            e.1 ≤ 0 ∨ e.2 ≤ 0 →
            launch n g (basicCUDAKernel2 e f) st = st) as L2.
  { intros [e0 e1] [n0 n1] [g0 g1] S f st He. simpl in He.
    rewrite basicCUDAKernel2_body, basicCUDAKernel2_invoked.
    rewrite filter_fmap_nil; [done|].
    intros [[b0 b1] [t0 t1] bd gd] Hth. grid_bounds.
    apply andb_false_iff. destruct He as [He|He]; [left|right];
      apply bool_decide_eq_false_2; simpl; nia. }
  assert (∀ (e n g : Z * Z * Z) S
            (f : WorkItem (Z * Z * Z) → S → S) (st : S),
            e.1.1 ≤ 0 ∨ e.1.2 ≤ 0 ∨ e.2 ≤ 0 →
            launch n g (basicCUDAKernel3 e f) st = st) as L3.
  { intros [[e0 e1] e2] [[n0 n1] n2] [[g0 g1] g2] S f st He. simpl in He.
    rewrite basicCUDAKernel3_body, basicCUDAKernel3_invoked.
    rewrite filter_fmap_nil; [done|].
    intros [[[b0 b1] b2] [[t0 t1] t2] bd gd] Hth. grid_bounds.
    rewrite !andb_false_iff. destruct He as [He|[He|He]];
      [left; left|left; right|right];
      apply bool_decide_eq_false_2; simpl; nia. }
  split_and!; [exact L1|exact L2|exact L3|..].
  - intros e S status f dev He. unfold runKernelAsync1.
    destruct status; simpl; rewrite ?memory_checkError; simpl;
      [by apply L1|done..].
  - intros e S status f dev He. unfold runKernelAsync2.
    destruct status; simpl; rewrite ?memory_checkError; simpl;
      [by apply L2|done..].
  - intros e S status f dev He. unfold runKernelAsync3.
    destruct status; simpl; rewrite ?memory_checkError; simpl;
      [by apply L3|done..].
Qed.

Lemma basicCUDAKernel_empty_extent_witness :
  (0 ≤ 0 ∧ (5 ≤ 0 ∨ 0 ≤ 0)) ∧
  launch 3 256 (basicCUDAKernel1 0 record) [] = [] ∧
  launch (1, 1) (16, 16) (basicCUDAKernel2 (5, 0) record) [] = [].
Proof.
  assert (0 ≤ 0) as H1 by lia. assert (5 ≤ 0 ∨ 0 ≤ 0) as H2 by lia.
  split; [by split|].
  destruct basicCUDAKernel_empty_extent as (L1 & L2 & _).
  split.
  - exact (L1 0 3 256 _ record [] H1).
  - exact (L2 (5, 0) (1, 1) (16, 16) _ record [] H2).
Defined.

(** ** More on the wrappers *)

Lemma Heap_eq (σ σ' : Heap) :
  objs σ = objs σ' → refs σ = refs σ' → calls σ = calls σ' → σ = σ'.
Proof. destruct σ, σ'. simpl. by intros -> -> ->. Qed.

(** Move assignment swaps the two handles and does nothing else: no retain
    or release call, no reference count changes, other wrappers are left
    alone and a balanced heap stays balanced.  Swapping back restores the
    heap, and move-assigning a wrapper to itself changes nothing. *)
Theorem assign_move_swaps :
  ∀ (σ : Heap) (this other h oh : N),
    objs σ !! this = Some h → objs σ !! other = Some oh →
    ∃ σ',
      assign_move this other σ = Some σ' ∧
      calls σ' = calls σ ∧
      refs σ' = refs σ ∧
      objs σ' !! this = Some oh ∧
      objs σ' !! other = Some h ∧
      (∀ a, a ≠ this → a ≠ other → objs σ' !! a = objs σ !! a) ∧
      (balanced σ → balanced σ') ∧
      assign_move this other σ' = Some σ ∧
      (this = other → σ' = σ).
Proof.
  intros σ this other h oh Hthis Hother.
  assert (this = other → h = oh) as Hsame by (intros ->; congruence).
  unfold assign_move at 1. rewrite Hthis, Hother. simpl.
  eexists. split; [done|]. simpl. split_and!; [done|done|..].
  - destruct (decide (this = other)) as [Heq|Hne].
    + rewrite <-(Hsame Heq), Heq. apply lookup_insert_eq.
    + rewrite lookup_insert_ne by done. apply lookup_insert_eq.
  - apply lookup_insert_eq.
  - intros a Ha1 Ha2. by rewrite !lookup_insert_ne.
  - intros Hb.
    destruct (assign_move_spec this other h oh σ Hb Hthis Hother)
      as (σ' & Hrun & _ & _ & _ & Hb').
    unfold assign_move in Hrun. rewrite Hthis, Hother in Hrun.
    simpl in Hrun. by injection Hrun as <-.
  - unfold assign_move. simpl. rewrite lookup_insert_eq.
    assert (<[other := h]> (<[this := oh]> (objs σ)) !! this = Some oh) as ->.
    { destruct (decide (this = other)) as [Heq|Hne].
      - rewrite <-(Hsame Heq), Heq. apply lookup_insert_eq.
      - rewrite lookup_insert_ne by done. apply lookup_insert_eq. }
    simpl. f_equal. apply Heap_eq; simpl; [|done..].
    apply map_eq. intros a.
    destruct (decide (a = other)) as [->|Ha1].
    { by rewrite lookup_insert_eq. }
    rewrite lookup_insert_ne by done.
    destruct (decide (a = this)) as [->|Ha2].
    { by rewrite lookup_insert_eq. }
    by rewrite !lookup_insert_ne.
  - intros Heq. apply Heap_eq; simpl; [|done..].
    rewrite <-Heq, insert_insert_eq. rewrite (Hsame Heq).
    apply insert_id. by rewrite Heq.
Qed.

Lemma assign_move_swaps_witness :
  let σ := mkHeap (<[2%N := 0%N]> (<[1%N := 7%N]> ∅)) (<[7%N := 1%nat]> ∅) [] in
  (objs σ !! 2%N = Some 0%N ∧ objs σ !! 1%N = Some 7%N) ∧
  ∃ σ', assign_move 2%N 1%N σ = Some σ' ∧
        calls σ' = [] ∧
        objs σ' !! 2%N = Some 7%N ∧ objs σ' !! 1%N = Some 0%N.
Proof.
  intros σ.
  assert (objs σ !! 2%N = Some 0%N) as H2 by apply lookup_insert_eq.
  assert (objs σ !! 1%N = Some 7%N) as H1.
  { simpl. rewrite lookup_insert_ne by done. apply lookup_insert_eq. }
  split; [by split|].
  destruct (assign_move_swaps σ 2%N 1%N 0%N 7%N H2 H1)
    as (σ' & Hrun & Hcalls & _ & Hthis & Hother & _).
  exists σ'. split_and!; done.
Defined.

Lemma held_refs (σ : Heap) (a h : N) :
  balanced σ → objs σ !! a = Some h → h ≠ 0%N →
  ∃ n, refs σ !! h = Some (S n).
Proof.
  intros Hb Ha Hh. pose proof (held_live σ a h Hb Ha Hh) as Hlive.
  apply refcount_pos in Hlive.
  destruct (refcount h σ) as [|n] eqn:E; [|eauto].
  destruct Hb as [Hnz _]. by destruct (Hnz h).
Qed.

(** Assignment from a raw handle, [operator =(OIDNx other)]: when the handle
    is null or held by some wrapper, one retain call on it (if non-null) is
    followed by one release call on the replaced handle (if non-null), and a
    balanced heap stays balanced.  It does exactly what copy assignment from
    a different wrapper holding that handle does. *)
Theorem assign_handle_balanced :
  ∀ (cls : RefClass) (σ : Heap) (this h other : N),
    balanced σ →
    objs σ !! this = Some h →
    other = 0%N ∨ (∃ a, objs σ !! a = Some other) →
    ∃ σ',
      assign_handle cls this other σ = Some σ' ∧
      calls σ'
      = calls σ ++ (if decide (other ≠ 0%N) then [Retain cls other] else [])
                ++ (if decide (h ≠ 0%N) then [Release cls h] else []) ∧
      objs σ' = <[this := other]> (objs σ) ∧
      balanced σ' ∧
      (∀ a, a ≠ this → objs σ !! a = Some other →
            assign_copy cls this a σ = Some σ').
Proof.
  intros cls σ this h other Hb Hthis Hlive. pose proof Hb as [Hnz Hbal].
  destruct (retain_if_spec cls other σ)
    as (σ1 & E1 & Hobjs1 & Hcalls1 & Hnz1 & Hrc1); [|done|].
  { intros Hoh. destruct Hlive as [->|[a Ha]]; [done|].
    by apply (held_live σ a). }
  destruct (release_if_spec cls h σ1)
    as (σ2 & E2 & Hobjs2 & Hcalls2 & Hnz2 & Hrc2); [|done|].
  { intros Hh. rewrite (Hrc1 h Hh).
    pose proof (held_live σ this h Hb Hthis Hh). lia. }
  assert (assign_handle cls this other σ
          = Some (set_objs <[this := other]> σ2)) as Hrun.
  { unfold assign_handle. rewrite Hthis. simpl. rewrite E1. simpl.
    by rewrite E2. }
  eexists. split; [exact Hrun|]. simpl. split_and!.
  - by rewrite Hcalls2, Hcalls1, app_assoc.
  - by rewrite Hobjs2, Hobjs1.
  - split; [done|]. intros h' Hh'.
    specialize (Hbal h' Hh'). specialize (Hrc1 h' Hh').
    specialize (Hrc2 h' Hh'). unfold owners in *.
    change (refcount h' (set_objs <[this:=other]> σ2)) with (refcount h' σ2).
    simpl. rewrite Hobjs2, Hobjs1.
    pose proof (cnt_insert_Some h' this other h (objs σ) Hthis). lia.
  - intros a Ha Hother. rewrite <-Hrun.
    unfold assign_copy, assign_handle. rewrite Hthis, Hother. simpl.
    by rewrite decide_True by done.
Qed.

Lemma assign_handle_balanced_witness :
  let σ := mkHeap (<[2%N := 0%N]> (<[1%N := 7%N]> ∅)) (<[7%N := 1%nat]> ∅) [] in
  (balanced σ ∧ objs σ !! 2%N = Some 0%N ∧ (∃ a, objs σ !! a = Some 7%N)) ∧
  ∃ σ', assign_handle BufferRef 2%N 7%N σ = Some σ' ∧
        calls σ' = [Retain BufferRef 7%N] ∧
        balanced σ'.
Proof.
  intros σ.
  assert (balanced σ) as Hb.
  { apply (run_balanced BufferRef [New 1%N 7%N; DefaultCtor 2%N]
             (mkHeap ∅ ∅ [])); [exact balanced_empty|].
    reflexivity. }
  assert (objs σ !! 2%N = Some 0%N) as H2 by apply lookup_insert_eq.
  assert (∃ a, objs σ !! a = Some 7%N) as H1.
  { exists 1%N. simpl. rewrite lookup_insert_ne by done.
    apply lookup_insert_eq. }
  split; [by split_and!|].
  destruct (assign_handle_balanced BufferRef σ 2%N 0%N 7%N Hb H2 (or_intror H1))
    as (σ' & Hrun & Hcalls & _ & Hb' & _).
  exists σ'. split_and!; done.
Defined.

(** Assigning a wrapper the handle it already holds - as a raw handle, or by
    copy assignment from another wrapper with the same handle - retains
    before it releases: the object is never gone in between, and handles and
    reference counts end as they were. *)
Theorem assign_same_handle_neutral :
  ∀ (cls : RefClass) (σ : Heap) (this h : N),
    balanced σ → objs σ !! this = Some h → h ≠ 0%N →
    let σ' := mkHeap (objs σ) (refs σ)
                (calls σ ++ [Retain cls h; Release cls h]) in
    assign_handle cls this h σ = Some σ' ∧
    (∀ other, other ≠ this → objs σ !! other = Some h →
              assign_copy cls this other σ = Some σ').
Proof.
  intros cls σ this h Hb Hthis Hh σ'.
  destruct (held_refs σ this h Hb Hthis Hh) as [n Hn].
  assert (assign_handle cls this h σ = Some σ') as Hrun.
  { unfold assign_handle. rewrite Hthis. simpl.
    rewrite decide_True by done. unfold oidnRetain. rewrite Hn. simpl.
    rewrite decide_True by done.
    unfold oidnRelease. simpl. rewrite lookup_insert_eq. simpl.
    f_equal. apply Heap_eq; simpl.
    - by apply insert_id.
    - rewrite insert_insert_eq. by apply insert_id.
    - by rewrite <-app_assoc. }
  split; [exact Hrun|].
  intros other Hne Hother. rewrite <-Hrun.
  unfold assign_copy, assign_handle. rewrite Hthis, Hother. simpl.
  by rewrite decide_True by done.
Qed.

Lemma assign_same_handle_neutral_witness :
  let σ := mkHeap (<[1%N := 7%N]> ∅) (<[7%N := 1%nat]> ∅) [] in
  (balanced σ ∧ objs σ !! 1%N = Some 7%N ∧ 7%N ≠ 0%N) ∧
  assign_handle DeviceRef 1%N 7%N σ
  = Some (mkHeap (objs σ) (refs σ)
            [Retain DeviceRef 7%N; Release DeviceRef 7%N]).
Proof.
  intros σ.
  assert (balanced σ) as Hb.
  { apply (run_balanced BufferRef [New 1%N 7%N] (mkHeap ∅ ∅ []));
      [exact balanced_empty|reflexivity]. }
  assert (objs σ !! 1%N = Some 7%N) as H1 by apply lookup_insert_eq.
  assert (7%N ≠ 0%N) as Hh by done.
  split; [by split_and!|].
  exact (proj1 (assign_same_handle_neutral DeviceRef σ 1%N 7%N Hb H1 Hh)).
Defined.

(** A temporary copy leaves no trace but two calls: copy construction
    followed by destruction of the copy brings handles and reference counts
    back to what they were, with one retain and one release call on a
    non-null handle and no call on a null one. *)
Theorem copy_then_destroy_neutral :
  ∀ (cls : RefClass) (σ : Heap) (this other h : N),
    balanced σ → objs σ !! other = Some h → objs σ !! this = None →
    ctor_copy cls this other σ ≫= dtor cls this
    = Some (mkHeap (objs σ) (refs σ)
              (calls σ ++ if decide (h ≠ 0%N)
                          then [Retain cls h; Release cls h] else [])).
Proof.
  intros cls σ this other h Hb Hother Hthis.
  unfold ctor_copy, ctor_handle. rewrite Hother. simpl.
  rewrite decide_True by done. simpl. case_decide as Hh.
  - destruct (held_refs σ other h Hb Hother Hh) as [n Hn].
    unfold oidnRetain. simpl. rewrite Hn. simpl.
    unfold dtor. simpl. rewrite lookup_insert_eq. simpl.
    rewrite decide_True by done.
    unfold oidnRelease. simpl. rewrite lookup_insert_eq. simpl.
    f_equal. apply Heap_eq; simpl.
    + by apply delete_insert_id.
    + rewrite insert_insert_eq. by apply insert_id.
    + by rewrite <-app_assoc.
  - unfold dtor. simpl. rewrite lookup_insert_eq. simpl.
    rewrite decide_False by tauto. simpl.
    f_equal. apply Heap_eq; simpl.
    + by apply delete_insert_id.
    + done.
    + by rewrite app_nil_r.
Qed.

Lemma copy_then_destroy_neutral_witness :
  let σ := mkHeap (<[1%N := 7%N]> ∅) (<[7%N := 1%nat]> ∅) [] in
  (balanced σ ∧ objs σ !! 1%N = Some 7%N ∧ objs σ !! 2%N = None) ∧
  ctor_copy FilterRef 2%N 1%N σ ≫= dtor FilterRef 2%N
  = Some (mkHeap (objs σ) (refs σ)
            [Retain FilterRef 7%N; Release FilterRef 7%N]).
Proof.
  intros σ.
  assert (balanced σ) as Hb.
  { apply (run_balanced BufferRef [New 1%N 7%N] (mkHeap ∅ ∅ []));
      [exact balanced_empty|reflexivity]. }
  assert (objs σ !! 1%N = Some 7%N) as H1 by apply lookup_insert_eq.
  assert (objs σ !! 2%N = None) as H2 by reflexivity.
  split; [by split_and!|].
  exact (copy_then_destroy_neutral FilterRef σ 2%N 1%N 7%N Hb H1 H2).
Defined.

(** The constructor from a raw handle takes the handle over without a
    retain call.  Wrapping a handle that another wrapper already owns
    therefore leaves the count one short: when that wrapper was the only
    owner, its destruction ends the object, the new wrapper is left with a
    handle to nothing, and its own destruction releases an object that is
    gone. *)
Theorem ctor_handle_adopts :
  ∀ (cls : RefClass) (σ : Heap) (a b h : N),
    balanced σ →
    objs σ !! a = Some h → h ≠ 0%N → objs σ !! b = None →
    (∀ c, c ≠ a → objs σ !! c ≠ Some h) →
    ∃ σ1 σ2,
      ctor_handle b h σ = Some σ1 ∧
      calls σ1 = calls σ ∧
      refs σ1 = refs σ ∧
      refcount h σ1 = 1%nat ∧ owners h σ1 = 2%nat ∧
      dtor cls a σ1 = Some σ2 ∧
      refs σ2 !! h = None ∧
      objs σ2 !! b = Some h ∧
      dtor cls b σ2 = None.
Proof.
  intros cls σ a b h Hb Ha Hh Hfresh Hsole.
  assert (a ≠ b) as Hne by congruence.
  assert (owners h σ = 1%nat) as Hown.
  { unfold owners. by apply (cnt_one h a). }
  assert (refs σ !! h = Some 1%nat) as Hrefs.
  { destruct Hb as [_ Hbal]. rewrite <-Hown, <-(Hbal h Hh).
    apply refcount_pos. rewrite (Hbal h Hh). lia. }
  unfold ctor_handle. rewrite decide_True by done.
  eexists _, _. split; [done|]. simpl. split_and!; [done|done|..].
  - unfold refcount. simpl. by rewrite Hrefs.
  - unfold owners in *. simpl. rewrite cnt_insert_None by done.
    rewrite decide_True by done. lia.
  - unfold dtor. simpl. rewrite lookup_insert_ne by done. rewrite Ha. simpl.
    rewrite decide_True by done. unfold oidnRelease. simpl.
    rewrite Hrefs. simpl. done.
  - simpl. apply lookup_delete_eq.
  - simpl. rewrite lookup_delete_ne by done. apply lookup_insert_eq.
  - unfold dtor. simpl. rewrite lookup_delete_ne by done.
    rewrite lookup_insert_eq. simpl. rewrite decide_True by done.
    unfold oidnRelease. simpl. by rewrite lookup_delete_eq.
Qed.

Lemma ctor_handle_adopts_witness :
  let σ := mkHeap (<[1%N := 7%N]> ∅) (<[7%N := 1%nat]> ∅) [] in
  (balanced σ ∧ objs σ !! 1%N = Some 7%N ∧ 7%N ≠ 0%N ∧
   objs σ !! 2%N = None ∧ (∀ c, c ≠ 1%N → objs σ !! c ≠ Some 7%N)) ∧
  ∃ σ1 σ2, ctor_handle 2%N 7%N σ = Some σ1 ∧
           dtor BufferRef 1%N σ1 = Some σ2 ∧
           dtor BufferRef 2%N σ2 = None.
Proof.
  intros σ.
  assert (balanced σ) as Hb.
  { apply (run_balanced BufferRef [New 1%N 7%N] (mkHeap ∅ ∅ []));
      [exact balanced_empty|reflexivity]. }
  assert (objs σ !! 1%N = Some 7%N) as H1 by apply lookup_insert_eq.
  assert (7%N ≠ 0%N) as Hh by done.
  assert (objs σ !! 2%N = None) as H2 by reflexivity.
  assert (∀ c, c ≠ 1%N → objs σ !! c ≠ Some 7%N) as Hsole.
  { intros c Hc. simpl. rewrite lookup_insert_ne by done.
    by rewrite lookup_empty. }
  split; [by split_and!|].
  destruct (ctor_handle_adopts BufferRef σ 1%N 2%N 7%N Hb H1 Hh H2 Hsole)
    as (σ1 & σ2 & E1 & _ & _ & _ & _ & E2 & _ & _ & E3).
  exists σ1, σ2. split_and!; done.
Defined.

(** Moving a wrapper out and back: move construction into a new wrapper,
    move assignment back to the source and destruction of the emptied
    wrapper restore the heap, call log included. *)
Theorem move_out_and_back :
  ∀ (cls : RefClass) (σ : Heap) (this other h : N),
    objs σ !! other = Some h → objs σ !! this = None →
    (ctor_move this other σ ≫= assign_move other this) ≫= dtor cls this
    = Some σ.
Proof.
  intros cls σ this other h Hother Hthis.
  assert (this ≠ other) as Hne by congruence.
  unfold ctor_move, ctor_handle. rewrite Hother. simpl.
  rewrite decide_True by done. simpl.
  unfold assign_move. simpl. rewrite lookup_insert_eq. simpl.
  rewrite lookup_insert_ne by done. rewrite lookup_insert_eq. simpl.
  unfold dtor. simpl. rewrite lookup_insert_eq. simpl.
  f_equal. apply Heap_eq; simpl; [|done..].
  rewrite delete_insert_eq. rewrite insert_insert_eq.
  rewrite delete_insert_ne by done. rewrite delete_insert_id by done.
  by apply insert_id.
Qed.

Lemma move_out_and_back_witness :
  let σ := mkHeap (<[1%N := 7%N]> ∅) (<[7%N := 1%nat]> ∅) [] in
  (objs σ !! 1%N = Some 7%N ∧ objs σ !! 2%N = None) ∧
  (ctor_move 2%N 1%N σ ≫= assign_move 1%N 2%N) ≫= dtor BufferRef 2%N
  = Some σ.
Proof.
  intros σ.
  assert (objs σ !! 1%N = Some 7%N) as H1 by apply lookup_insert_eq.
  assert (objs σ !! 2%N = None) as H2 by reflexivity.
  split; [by split|].
  exact (move_out_and_back BufferRef σ 2%N 1%N 7%N H1 H2).
Defined.

(** ** The call log of a program *)

Lemma count_nil {A} (p : A → bool) : count p [] = 0%nat.
Proof. done. Qed.

Lemma count_cons {A} (p : A → bool) (x : A) (l : list A) :
  count p (x :: l) = ((if p x then 1 else 0) + count p l)%nat.
Proof. unfold count. rewrite filter_cons. by destruct (p x). Qed.

Lemma count_app {A} (p : A → bool) (l k : list A) :
  count p (l ++ k) = (count p l + count p k)%nat.
Proof. unfold count. by rewrite filter_app, length_app. Qed.

Lemma bool_decide_ind (x h : N) :
  (if bool_decide (x = h) then 1 else 0)%nat = ind x h.
Proof. by case_bool_decide; case_decide. Qed.

Lemma count_retain_if (cls : RefClass) (x h : N) :
  h ≠ 0%N →
  count (is_retain h) (if decide (x ≠ 0%N) then [Retain cls x] else [])
  = ind x h.
Proof.
  intros Hh. destruct (decide (x ≠ 0%N)) as [Hx|Hx].
  - rewrite count_cons, count_nil. simpl. rewrite bool_decide_ind. lia.
  - rewrite count_nil. rewrite decide_False; [done|]. intros ->. tauto.
Qed.

Lemma count_release_if (cls : RefClass) (x h : N) :
  h ≠ 0%N →
  count (is_release h) (if decide (x ≠ 0%N) then [Release cls x] else [])
  = ind x h.
Proof.
  intros Hh. destruct (decide (x ≠ 0%N)) as [Hx|Hx].
  - rewrite count_cons, count_nil. simpl. rewrite bool_decide_ind. lia.
  - rewrite count_nil. rewrite decide_False; [done|]. intros ->. tauto.
Qed.

Lemma count_release_retain_if (cls : RefClass) (x h : N) :
  count (is_release h) (if decide (x ≠ 0%N) then [Retain cls x] else [])
  = 0%nat.
Proof. by destruct (decide (x ≠ 0%N)). Qed.

Lemma count_retain_release_if (cls : RefClass) (x h : N) :
  count (is_retain h) (if decide (x ≠ 0%N) then [Release cls x] else [])
  = 0%nat.
Proof. by destruct (decide (x ≠ 0%N)). Qed.

(** What one step adds to the call log, against what it does to the number
    of owners. *)
Lemma step_call_log (cls : RefClass) (op : RefOp) (σ σ' : Heap) :
  balanced σ → step cls op σ = Some σ' →
  ∃ suffix,
    calls σ' = calls σ ++ suffix ∧
    Forall (λ c, call_handle c ≠ 0%N ∧ call_class c = cls) suffix ∧
    (∀ h, h ≠ 0%N →
       (owners h σ' + count (is_release h) suffix)%nat
       = (owners h σ + count (is_retain h) suffix + count (is_new h) [op])%nat).
Proof.
  intros Hb Hstep. pose proof (step_Some_ok cls op σ σ' Hstep) as Hok.
  destruct op as [this h0|this|this other|this other|
                  this other|this other|this]; simpl in Hstep, Hok.
  - destruct Hok as (Hthis & Hh0 & Hfresh).
    destruct (new_ref_spec this h0 σ Hb Hthis Hh0 Hfresh)
      as (σ'' & Hrun & Hcalls & Hobjs & _).
    assert (σ'' = σ') as -> by congruence.
    exists []. rewrite app_nil_r. split_and!; [done|constructor|].
    intros h Hh. unfold owners. rewrite Hobjs.
    rewrite cnt_insert_None by done.
    rewrite count_cons, !count_nil. simpl. rewrite bool_decide_ind. lia.
  - destruct (ctor_default_spec this σ Hb Hok)
      as (σ'' & Hrun & Hcalls & Hobjs & _ & _).
    assert (σ'' = σ') as -> by congruence.
    exists []. rewrite app_nil_r. split_and!; [done|constructor|].
    intros h Hh. unfold owners. rewrite Hobjs.
    rewrite cnt_insert_None by done.
    rewrite decide_False by congruence.
    rewrite count_cons, !count_nil. simpl. lia.
  - destruct Hok as (Hthis & [h0 Hother]).
    destruct (ctor_copy_spec cls this other h0 σ Hb Hother Hthis)
      as (σ'' & Hrun & Hcalls & Hobjs & _).
    assert (σ'' = σ') as -> by congruence.
    eexists. split; [exact Hcalls|]. split.
    + destruct (decide (h0 ≠ 0%N)); repeat constructor; done.
    + intros h Hh. unfold owners. rewrite Hobjs.
      rewrite cnt_insert_None by done.
      rewrite (count_retain_if cls h0 h Hh), count_release_retain_if.
      rewrite count_cons, count_nil. simpl. lia.
  - destruct Hok as (Hthis & [h0 Hother]).
    destruct (ctor_move_spec this other h0 σ Hb Hother Hthis)
      as (σ'' & Hrun & Hcalls & Hrefs & _ & Hb').
    assert (σ'' = σ') as -> by congruence.
    exists []. rewrite app_nil_r. split_and!; [done|constructor|].
    intros h Hh. destruct Hb as [_ Hbal], Hb' as [_ Hbal'].
    rewrite <-(Hbal h Hh), <-(Hbal' h Hh). unfold refcount. rewrite Hrefs.
    rewrite count_cons, !count_nil. simpl. lia.
  - destruct Hok as ([h0 Hthis] & [oh Hother]).
    destruct (decide (other = this)) as [->|Hne].
    + rewrite (assign_copy_self cls this h0 σ Hthis) in Hstep.
      injection Hstep as <-.
      exists []. rewrite app_nil_r. split_and!; [done|constructor|].
      intros h Hh. rewrite count_cons, !count_nil. simpl. lia.
    + destruct (assign_copy_spec cls this other h0 oh σ Hb Hthis Hother Hne)
        as (σ'' & Hrun & Hcalls & Hobjs & _).
      assert (σ'' = σ') as -> by congruence.
      eexists. split; [exact Hcalls|]. split.
      * apply Forall_app. split.
        -- destruct (decide (oh ≠ 0%N)); repeat constructor; done.
        -- destruct (decide (h0 ≠ 0%N)); repeat constructor; done.
      * intros h Hh. unfold owners. rewrite Hobjs.
        pose proof (cnt_insert_Some h this oh h0 (objs σ) Hthis) as Hcnt.
        rewrite !count_app.
        rewrite (count_retain_if cls oh h Hh), (count_release_if cls h0 h Hh).
        rewrite count_release_retain_if, count_retain_release_if.
        rewrite count_cons, count_nil. simpl. lia.
  - destruct Hok as ([h0 Hthis] & [oh Hother]).
    destruct (assign_move_spec this other h0 oh σ Hb Hthis Hother)
      as (σ'' & Hrun & Hcalls & Hrefs & _ & Hb').
    assert (σ'' = σ') as -> by congruence.
    exists []. rewrite app_nil_r. split_and!; [done|constructor|].
    intros h Hh. destruct Hb as [_ Hbal], Hb' as [_ Hbal'].
    rewrite <-(Hbal h Hh), <-(Hbal' h Hh). unfold refcount. rewrite Hrefs.
    rewrite count_cons, !count_nil. simpl. lia.
  - destruct Hok as [h0 Hthis].
    destruct (dtor_spec cls this h0 σ Hb Hthis)
      as (σ'' & Hrun & Hcalls & Hobjs & _ & _).
    assert (σ'' = σ') as -> by congruence.
    eexists. split; [exact Hcalls|]. split.
    + destruct (decide (h0 ≠ 0%N)); repeat constructor; done.
    + intros h Hh. unfold owners. rewrite Hobjs.
      pose proof (cnt_delete_Some h this h0 (objs σ) Hthis) as Hcnt.
      rewrite (count_release_if cls h0 h Hh), count_retain_release_if.
      rewrite count_cons, count_nil. simpl. lia.
Qed.

Lemma run_call_log (cls : RefClass) (ops : list RefOp) (σ σ' : Heap) :
  balanced σ → run cls ops σ = Some σ' →
  ∃ suffix,
    calls σ' = calls σ ++ suffix ∧
    Forall (λ c, call_handle c ≠ 0%N ∧ call_class c = cls) suffix ∧
    (∀ h, h ≠ 0%N →
       (refcount h σ' + count (is_release h) suffix)%nat
       = (refcount h σ + count (is_retain h) suffix
          + count (is_new h) ops)%nat).
Proof.
  revert σ. induction ops as [|op ops IH]; intros σ Hb Hrun; simpl in Hrun.
  - injection Hrun as <-. exists []. rewrite app_nil_r.
    split_and!; [done|constructor|]. intros h _. rewrite !count_nil. lia.
  - destruct (step cls op σ) as [σ1|] eqn:Hstep; [|done]. simpl in Hrun.
    assert (balanced σ1) as Hb1
      by (apply (run_balanced cls [op] σ); [done|]; simpl; by rewrite Hstep).
    destruct (step_call_log cls op σ σ1 Hb Hstep)
      as (s1 & Hcalls1 & Hok1 & Hcount1).
    destruct (IH σ1 Hb1 Hrun) as (s2 & Hcalls2 & Hok2 & Hcount2).
    exists (s1 ++ s2). split_and!.
    + by rewrite Hcalls2, Hcalls1, app_assoc.
    + by apply Forall_app.
    + intros h Hh. specialize (Hcount1 h Hh). specialize (Hcount2 h Hh).
      destruct Hb as [_ Hbal], Hb1 as [_ Hbal1].
      rewrite (Hbal h Hh). rewrite (Hbal1 h Hh) in Hcount2.
      rewrite !count_app, (count_cons _ op ops).
      rewrite count_cons, count_nil in Hcount1. lia.
Qed.



(** The wrappers never pass a null handle to the API, and a wrapper of one
    class only calls the entry points of that class: every call a program
    adds to the log has a non-null handle and the program's class. *)
Theorem calls_never_null :
  ∀ (cls : RefClass) (ops : list RefOp) (σ σ' : Heap),
    balanced σ → run cls ops σ = Some σ' →
    ∃ suffix,
      calls σ' = calls σ ++ suffix ∧
      Forall (λ c, call_handle c ≠ 0%N ∧ call_class c = cls) suffix.
Proof.
  intros cls ops σ σ' Hb Hrun.
  destruct (run_call_log cls ops σ σ' Hb Hrun) as (suffix & Hcalls & Hok & _).
  eauto.
Qed.

Lemma calls_never_null_witness :
  let ops := [New 1%N 7%N; DefaultCtor 2%N; CopyAssign 2%N 1%N;
              Dtor 1%N; Dtor 2%N] in
  (balanced (mkHeap ∅ ∅ []) ∧
   run FilterRef ops (mkHeap ∅ ∅ [])
   = Some (mkHeap ∅ ∅ [Retain FilterRef 7%N; Release FilterRef 7%N;
                       Release FilterRef 7%N])) ∧
  ∃ suffix,
    [Retain FilterRef 7%N; Release FilterRef 7%N; Release FilterRef 7%N]
    = [] ++ suffix ∧
    Forall (λ c, call_handle c ≠ 0%N ∧ call_class c = FilterRef) suffix.
Proof.
  intros ops.
  assert (run FilterRef ops (mkHeap ∅ ∅ [])
          = Some (mkHeap ∅ ∅ [Retain FilterRef 7%N; Release FilterRef 7%N;
                              Release FilterRef 7%N])) as Hrun
    by reflexivity.
  split; [split; [exact balanced_empty|exact Hrun]|].
  exact (calls_never_null FilterRef ops _ _ balanced_empty Hrun).
Defined.

(** ** Sequences of launches *)

Lemma runKernelAsync1_step {S} (status : cudaError_t) (g : Z)
    (f : WorkItem Z → S → S) (dev : CUDADevice S) :
  lastError dev = cudaSuccess →
  let dev' := runKernelAsync1 status g f dev in
  lastError dev' = cudaSuccess ∧
  memory dev'
  = (if decide (status = cudaSuccess)
     then launch (ceil_div g 256) 256 (basicCUDAKernel1 g f) (memory dev)
     else memory dev) ∧
  errorState dev'
  = (if decide (status = cudaSuccess) then errorState dev
     else recordError (errorKind status) (cudaGetErrorString status)
            (errorState dev)).
Proof.
  intros Hclear. unfold runKernelAsync1, suggestWorkGroupSize1.
  destruct status; simpl; rewrite ?Hclear; simpl; done.
Qed.

(** Launches enqueued one after the other on a device without a pending
    error: every accepted launch runs its kernel, in order, whether or not an
    earlier launch failed; rejected launches run nothing; the runtime's error
    is clear at the end; and the device's slot holds the error of the first
    rejected launch, later failures being dropped. *)
Theorem enqueueAll_first_failure :
  ∀ S (launches : list (cudaError_t * Z * (WorkItem Z → S → S)))
    (dev : CUDADevice S),
    lastError dev = cudaSuccess →
    code (errorState dev) = OIDN_ERROR_NONE →
    let dev' := enqueueAll launches dev in
    let failed := firstFailure (launches.*1.*1) in
    lastError dev' = cudaSuccess ∧
    memory dev'
    = foldl (λ m l, if decide (l.1.1 = cudaSuccess)
                    then launch (ceil_div l.1.2 256) 256
                           (basicCUDAKernel1 l.1.2 l.2) m
                    else m) (memory dev) launches ∧
    errorState dev'
    = (if decide (failed = cudaSuccess) then errorState dev
       else mkErrorState (errorKind failed) (cudaGetErrorString failed)).
Proof.
  intros S launches dev Hclear Hempty. simpl.
  assert (∀ (ls : list (cudaError_t * Z * (WorkItem Z → S → S))) d,
            lastError d = cudaSuccess →
            lastError (enqueueAll ls d) = cudaSuccess ∧
            memory (enqueueAll ls d)
            = foldl (λ m l, if decide (l.1.1 = cudaSuccess)
                            then launch (ceil_div l.1.2 256) 256
                                   (basicCUDAKernel1 l.1.2 l.2) m
                            else m) (memory d) ls ∧
            (code (errorState d) ≠ OIDN_ERROR_NONE →
             errorState (enqueueAll ls d) = errorState d) ∧
            (code (errorState d) = OIDN_ERROR_NONE →
             errorState (enqueueAll ls d)
             = (if decide (firstFailure (ls.*1.*1) = cudaSuccess)
                then errorState d
                else mkErrorState (errorKind (firstFailure (ls.*1.*1)))
                       (cudaGetErrorString (firstFailure (ls.*1.*1))))))
    as Hgen.
  { induction ls as [|[[status g] f] ls IH]; intros d Hd.
    - simpl. split_and!; done.
    - change (enqueueAll ((status, g, f) :: ls) d)
        with (enqueueAll ls (runKernelAsync1 status g f d)).
      simpl.
      destruct (runKernelAsync1_step status g f d Hd) as (Hl & Hm & He).
      destruct (IH _ Hl) as (IHl & IHm & IHkeep & IHfirst).
      split_and!.
      + exact IHl.
      + rewrite IHm. by rewrite Hm.
      + intros Hpending. rewrite IHkeep; rewrite He.
        * destruct (decide (status = cudaSuccess)); [done|].
          unfold recordError. by rewrite decide_False.
        * destruct (decide (status = cudaSuccess)); [done|].
          unfold recordError. by rewrite decide_False.
      + intros Hnone. destruct (decide (status = cudaSuccess)) as [->|Hfail].
        * simpl. rewrite IHfirst; rewrite He; simpl; done.
        * rewrite decide_False by done.
          rewrite IHkeep; rewrite He; unfold recordError;
            rewrite decide_True by done; [done|].
          simpl. by destruct status. }
  destruct (Hgen launches dev Hclear) as (Hl & Hm & _ & Hfirst).
  split_and!; [done|done|by apply Hfirst].
Qed.

Lemma enqueueAll_first_failure_witness :
  let dev := mkCUDADevice ([] : list (WorkItem Z)) cudaSuccess noError in
  let launches :=
    [(cudaSuccess, 2, record); (cudaErrorInvalidConfiguration, 0, record);
     (cudaErrorMemoryAllocation, 5, record); (cudaSuccess, 1, record)] in
  (lastError dev = cudaSuccess ∧ code (errorState dev) = OIDN_ERROR_NONE) ∧
  code (errorState (enqueueAll launches dev)) = OIDN_ERROR_UNKNOWN ∧
  getId <$> memory (enqueueAll launches dev) = [0; 1; 0].
Proof.
  intros dev launches.
  assert (lastError dev = cudaSuccess) as H1 by reflexivity.
  assert (code (errorState dev) = OIDN_ERROR_NONE) as H2 by reflexivity.
  split; [by split|].
  destruct (enqueueAll_first_failure _ launches dev H1 H2)
    as (_ & Hm & He).
  split.
  - rewrite He. reflexivity.
  - rewrite Hm. reflexivity.
Defined.

(** [runKernelAsync] always consumes the runtime's error: after each
    overload the runtime's last error is clear.  An error that was already
    pending in the runtime before an accepted launch (left by an earlier,
    unchecked runtime call) is picked up by that launch's check: the kernel
    still runs, and it is that stale error, with its kind and message, that
    is recorded into the device's slot - kept there when the slot was empty,
    dropped in favour of the error already in the slot otherwise. *)
Theorem runKernelAsync_consumes_last_error :
  ∀ S (status : cudaError_t) (dev : CUDADevice S),
    (∀ g (f : WorkItem Z → S → S),
       lastError (runKernelAsync1 status g f dev) = cudaSuccess) ∧
    (∀ g (f : WorkItem (Z * Z) → S → S),
       lastError (runKernelAsync2 status g f dev) = cudaSuccess) ∧
    (∀ g (f : WorkItem (Z * Z * Z) → S → S),
       lastError (runKernelAsync3 status g f dev) = cudaSuccess) ∧
    (∀ D (HD : Coords D) (n g : D) (f : WorkGroupItem D → S → S),
       lastError (runKernelAsyncGroup status n g f dev) = cudaSuccess) ∧
    (lastError dev ≠ cudaSuccess →
     ∀ D (HD : Coords D) (n g : D) (f : WorkGroupItem D → S → S),
       let dev' := runKernelAsyncGroup cudaSuccess n g f dev in
       memory dev' = launch n g (groupCUDAKernel f) (memory dev) ∧
       errorState dev'
       = recordError (errorKind (lastError dev))
           (cudaGetErrorString (lastError dev)) (errorState dev) ∧
       (code (errorState dev) = OIDN_ERROR_NONE →
        errorState dev'
        = mkErrorState (errorKind (lastError dev))
            (cudaGetErrorString (lastError dev))) ∧
       (code (errorState dev) ≠ OIDN_ERROR_NONE →
        errorState dev' = errorState dev) ∧
       code (errorState dev') ≠ OIDN_ERROR_NONE).
Proof.
  intros S status dev.
  assert (∀ e (d : CUDADevice S),
            lastError d = cudaSuccess → lastError (checkError e d) = cudaSuccess)
    as Hcheck by (intros [] d Hd; done).
  split_and!.
  - intros g f. unfold runKernelAsync1. apply Hcheck. by destruct status.
  - intros g f. unfold runKernelAsync2. apply Hcheck. by destruct status.
  - intros g f. unfold runKernelAsync3. apply Hcheck. by destruct status.
  - intros D HD n g f. unfold runKernelAsyncGroup. apply Hcheck.
    by destruct status.
  - intros Hstale D HD n g f. simpl.
    assert (errorState (runKernelAsyncGroup cudaSuccess n g f dev)
            = recordError (errorKind (lastError dev))
                (cudaGetErrorString (lastError dev)) (errorState dev)) as He.
    { unfold runKernelAsyncGroup. simpl. by destruct (lastError dev). }
    split; [apply runKernelAsyncGroup_memory|]. split; [exact He|].
    rewrite He. unfold recordError. split_and!.
    + intros Hnone. by rewrite decide_True.
    + intros Hpending. by rewrite decide_False.
    + destruct (decide (code (errorState dev) = OIDN_ERROR_NONE));
        [|done]. simpl. by destruct (lastError dev).
Qed.

Lemma runKernelAsync_consumes_last_error_witness :
  let dev := mkCUDADevice ([] : list (WorkGroupItem Z))
               cudaErrorMemoryAllocation noError in
  lastError dev ≠ cudaSuccess ∧
  length (memory (runKernelAsyncGroup cudaSuccess 2 3 record dev)) = 6%nat ∧
  errorState (runKernelAsyncGroup cudaSuccess 2 3 record dev)
  = mkErrorState OIDN_ERROR_OUT_OF_MEMORY "out of memory".
Proof.
  intros dev.
  assert (lastError dev ≠ cudaSuccess) as Hstale by discriminate.
  split; [exact Hstale|].
  destruct (runKernelAsync_consumes_last_error _ cudaSuccess dev)
    as (_ & _ & _ & _ & H).
  destruct (H Hstale Z _ 2 3 record) as (Hm & He & _).
  split; [rewrite Hm; reflexivity|exact He].
Defined.

(** Construction by copy or by move is default construction followed by
    the matching assignment: both ways make the same calls and end in the
    same heap (or fail alike on a dead handle). *)
Theorem ctor_as_default_then_assign :
  ∀ (cls : RefClass) (σ : Heap) (this other h : N),
    objs σ !! other = Some h → objs σ !! this = None →
    ctor_default this σ ≫= assign_copy cls this other
    = ctor_copy cls this other σ ∧
    ctor_default this σ ≫= assign_move this other
    = ctor_move this other σ.
Proof.
  intros cls σ this other h Hother Hthis.
  assert (other ≠ this) as Hne by congruence.
  unfold ctor_default, ctor_copy, ctor_move, ctor_handle.
  rewrite Hother. simpl. rewrite !decide_True by done. simpl. split.
  - unfold assign_copy. simpl. rewrite lookup_insert_eq. simpl.
    rewrite lookup_insert_ne by done. rewrite Hother. simpl.
    rewrite decide_True by done.
    destruct (decide (h ≠ 0%N)) as [Hh|Hh].
    + unfold oidnRetain. simpl. destruct (refs σ !! h) as [n|]; [|done].
      simpl. f_equal. apply Heap_eq; simpl; [|done..].
      apply insert_insert_eq.
    + simpl. f_equal. apply Heap_eq; simpl; [|done..].
      apply insert_insert_eq.
  - unfold assign_move. simpl. rewrite lookup_insert_eq. simpl.
    rewrite lookup_insert_ne by done. rewrite Hother. simpl.
    f_equal. apply Heap_eq; simpl; [|done..].
    by rewrite insert_insert_eq.
Qed.

Lemma ctor_as_default_then_assign_witness :
  let σ := mkHeap (<[1%N := 7%N]> ∅) (<[7%N := 1%nat]> ∅) [] in
  (objs σ !! 1%N = Some 7%N ∧ objs σ !! 2%N = None) ∧
  ctor_default 2%N σ ≫= assign_copy BufferRef 2%N 1%N
  = ctor_copy BufferRef 2%N 1%N σ.
Proof.
  intros σ.
  assert (objs σ !! 1%N = Some 7%N) as H1 by apply lookup_insert_eq.
  assert (objs σ !! 2%N = None) as H2 by reflexivity.
  split; [by split|].
  exact (proj1 (ctor_as_default_then_assign BufferRef σ 2%N 1%N 7%N H1 H2)).
Defined.
